(** * generate-json-patch: a shallow embedding of [src/index.ts]

    [generateJSONPatch before after config] walks two JSON values and
    appends RFC-6902 style operations to one shared [patch] array.  The
    closures of the source ([compareObjects], [compareArrays],
    [compareArrayByIndex], [compareArrayByHash]) become functions in a
    small state-and-exception monad whose state is that array.

    The callbacks [objectHash] and [propertyFilter] are total functions
    here: what they throw is the caller's.  The recursion of the source
    descends into the left value and is bounded by fuel, which
    [generateJSONPatch] provides in sufficient amount
    ([generateJSONPatch_terminates]). *)

From Stdlib Require Import ZArith List String Ascii Bool Lia DecimalString Permutation.
Import ListNotations.
Set Warnings "-register-all".
Local Open Scope string_scope.
Local Open Scope list_scope.
Local Open Scope Z_scope.

(** ** Data model *)

(** [JsonValue] of the source.  Numbers are integers here: the algorithm
    only compares them ([===]) and serialises them.  Arrays and objects
    carry [ref], the identity of the JavaScript heap object, because [!==]
    on two non-primitive values compares identities and not contents.
    An object lists its own properties in [for ... in] enumeration order;
    a JavaScript object has pairwise distinct keys. *)
Inductive JsonValue : Type :=
| JNull
| JBool (b : bool)
| JNumber (n : Z)
| JString (s : string)
| JArray (ref : nat) (elems : list JsonValue)
| JObject (ref : nat) (props : list (string * JsonValue)).

Inductive Operation : Type :=
| Add (path : string) (value : JsonValue)
| Remove (path : string)
| Replace (path : string) (value : JsonValue)
| Move (from path : string)
| Copy (from path : string)
| Test (path : string) (value : JsonValue).

Definition Patch := list Operation.

Inductive Side := left | right.

Record GeneratePatchContext := { side : Side; path : string }.

Definition ObjectHash := JsonValue -> GeneratePatchContext -> string.
Definition PropertyFilter := string -> GeneratePatchContext -> bool.

(** What [config.objectHash] can hold at run time: a falsy value (in
    particular [undefined]), a truthy value that is not callable, or a
    function.  [compareArrays] tests truthiness, [compareArrayByHash]
    tests [typeof objectHash !== 'function']. *)
Inductive ObjectHashSlot :=
| HashFalsy
| HashNotCallable
| HashFunction (f : ObjectHash).

(** [propertyFilter] is used only when [typeof propertyFilter ===
    'function']: [None] stands for every other content of the field.
    [array_ignoreMove] is the truthiness of [config.array?.ignoreMove]. *)
Record JsonPatchConfig := {
  objectHash : ObjectHashSlot;
  propertyFilter : option PropertyFilter;
  array_ignoreMove : bool
}.

Definition emptyConfig : JsonPatchConfig :=
  {| objectHash := HashFalsy; propertyFilter := None; array_ignoreMove := false |}.

(** ** Exceptions and the shared accumulator *)

Inductive Exception :=
| NoObjectHashFunction   (* Error('No objectHash function provided') *)
| NotAFunction.          (* TypeError: x.hasOwnProperty is not a function *)

Inductive Outcome (A : Type) : Type :=
| Returns (a : A) (patch : Patch)
| Throws (e : Exception)
| OutOfFuel.
Arguments Returns {A} a patch.
Arguments Throws {A} e.
Arguments OutOfFuel {A}.

Definition M (A : Type) : Type := Patch -> Outcome A.

Definition ret {A} (a : A) : M A := fun patch => Returns a patch.

Definition bind {A B} (m : M A) (k : A -> M B) : M B :=
  fun patch =>
    match m patch with
    | Returns a patch' => k a patch'
    | Throws e => Throws e
    | OutOfFuel => OutOfFuel
    end.

Definition throw {A} (e : Exception) : M A := fun _ => Throws e.
Definition outOfFuel {A} : M A := fun _ => OutOfFuel.

(** [patch.push(op)] *)
Definition push (op : Operation) : M unit :=
  fun patch => Returns tt (patch ++ [op]).

Notation "x <- m ;; k" := (bind m (fun x => k))
  (at level 61, m at next level, right associativity).
Notation "m ;;; k" := (bind m (fun _ => k))
  (at level 61, right associativity).

(** ** Helpers of the source and JavaScript primitives it uses *)

(** Decimal rendering of an index inside a template literal. *)
Definition index_string (i : Z) : string := NilZero.string_of_int (Z.to_int i).

(** [`${path}/${segment}`] *)
Definition join (path segment : string) : string := (path ++ "/" ++ segment)%string.

Definition isArray (v : option JsonValue) : bool :=
  match v with Some (JArray _ _) => true | _ => false end.

(** [isPrimitiveValue]: on a JSON value, everything but arrays and objects. *)
Definition isPrimitiveValue (v : JsonValue) : bool :=
  match v with JArray _ _ | JObject _ _ => false | _ => true end.

Fixpoint hasKey (k : string) (props : list (string * JsonValue)) : bool :=
  match props with
  | [] => false
  | (k', _) :: rest => String.eqb k k' || hasKey k rest
  end.

Fixpoint getProp (k : string) (props : list (string * JsonValue)) : option JsonValue :=
  match props with
  | [] => None
  | (k', v) :: rest => if String.eqb k k' then Some v else getProp k rest
  end.

(** [isJsonObject value]: [value?.constructor === Object].  A plain object
    inherits [constructor] from [Object.prototype] unless it has an own
    property of that name, whose value is a JSON value and never [Object];
    an array's constructor is [Array], a primitive's is never [Object],
    and [undefined?.constructor] is [undefined]. *)
Definition isJsonObject (v : option JsonValue) : bool :=
  match v with
  | Some (JObject _ props) => negb (hasKey "constructor" props)
  | _ => false
  end.

(** [obj.hasOwnProperty(key)] on an object of the input.  The method is
    looked up on the object itself first: when the object has an own
    property named [hasOwnProperty], that JSON value is what gets called,
    and the call throws a [TypeError]. *)
Definition hasOwnProperty (props : list (string * JsonValue)) (key : string) : M bool :=
  if hasKey "hasOwnProperty" props then throw NotAFunction
  else ret (hasKey key props).

(** [left !== right].  Primitives compare by value, arrays and objects by
    identity; values of different types are never equal. *)
Definition strictEq (l r : JsonValue) : bool :=
  match l, r with
  | JNull, JNull => true
  | JBool a, JBool b => Bool.eqb a b
  | JNumber a, JNumber b => Z.eqb a b
  | JString a, JString b => String.eqb a b
  | JArray a _, JArray b _ => Nat.eqb a b
  | JObject a _, JObject b _ => Nat.eqb a b
  | _, _ => false
  end.

(** [JSON.stringify(l) === JSON.stringify(r)].  On JSON values the
    serialisation determines the value up to the identities of its arrays
    and objects (keys are written in enumeration order), so the comparison
    of the two texts is the comparison of the two values without [ref]. *)
Fixpoint sameJSON (l r : JsonValue) {struct l} : bool :=
  let fix sameElems (ls rs : list JsonValue) {struct ls} : bool :=
    match ls, rs with
    | [], [] => true
    | x :: ls', y :: rs' => sameJSON x y && sameElems ls' rs'
    | _, _ => false
    end in
  let fix sameProps (ls rs : list (string * JsonValue)) {struct ls} : bool :=
    match ls, rs with
    | [], [] => true
    | (k, x) :: ls', (k', y) :: rs' =>
        String.eqb k k' && sameJSON x y && sameProps ls' rs'
    | _, _ => false
    end in
  match l, r with
  | JNull, JNull => true
  | JBool a, JBool b => Bool.eqb a b
  | JNumber a, JNumber b => Z.eqb a b
  | JString a, JString b => String.eqb a b
  | JArray _ ls, JArray _ rs => sameElems ls rs
  | JObject _ ls, JObject _ rs => sameProps ls rs
  | _, _ => false
  end.

Fixpoint sameElements (ls rs : list JsonValue) : bool :=
  match ls, rs with
  | [], [] => true
  | x :: ls', y :: rs' => sameJSON x y && sameElements ls' rs'
  | _, _ => false
  end.

(** [array.indexOf(x)] on an array of strings: the first index holding
    [x], or [-1]. *)
Fixpoint indexOf (array : list string) (x : string) : Z :=
  match array with
  | [] => -1
  | y :: rest =>
      if String.eqb y x then 0
      else let i := indexOf rest x in if i <? 0 then -1 else i + 1
  end.

(** [array.includes(x)] *)
Definition includes (array : list string) (x : string) : bool :=
  existsb (String.eqb x) array.

(** Where [array.splice(start, ...)] starts: a negative [start] counts from
    the end, and the result is clamped to the array. *)
Definition spliceStart (len start : Z) : nat :=
  Z.to_nat (if start <? 0 then Z.max (len + start) 0 else Z.min start len).

(** [moveArrayElement(array, from, to)]:
    [array.splice(to, 0, array.splice(from, 1)[0])].  When [from] is
    outside the array nothing is removed and JavaScript inserts
    [undefined], which is what the argument [undefined] stands for. *)
Definition moveArrayElement {A} (undefined : A) (array : list A) (from to : Z) : list A :=
  let s := spliceStart (Z.of_nat (List.length array)) from in
  let removed := nth s array undefined in
  let array' := firstn s array ++ skipn (S s) array in
  let t := spliceStart (Z.of_nat (List.length array')) to in
  firstn t array' ++ removed :: skipn t array'.

(** ** The array reconcilers

    They are closures of [generateJSONPatch]; [compareObjects] is the
    recursive call they make on a pair of elements. *)
Section Reconcilers.
Variable config : JsonPatchConfig.
Variable compareObjects : string -> JsonValue -> JsonValue -> M unit.

(** The [for] loop of [compareArrayByIndex], with [steps] iterations
    left: [steps = maxLength - i]. *)
Fixpoint indexLoop (leftArr rightArr : list JsonValue) (path : string)
         (steps i : nat) (currentIndex : Z) : M unit :=
  match steps with
  | O => ret tt
  | S steps' =>
      let newPathIndex := join path (index_string currentIndex) in
      let currentIndex := currentIndex + 1 in
      match nth_error leftArr i, nth_error rightArr i with
      | Some l, Some r =>        (* i < leftArr.length && i < rightArr.length *)
          compareObjects newPathIndex l r ;;;
          indexLoop leftArr rightArr path steps' (S i) currentIndex
      | None, Some r =>          (* i >= leftArr.length && i < rightArr.length *)
          push (Add newPathIndex r) ;;;
          indexLoop leftArr rightArr path steps' (S i) currentIndex
      | Some _, None =>          (* i < leftArr.length && i >= rightArr.length *)
          push (Remove newPathIndex) ;;;
          indexLoop leftArr rightArr path steps' (S i) (currentIndex - 1)
      | None, None =>
          indexLoop leftArr rightArr path steps' (S i) currentIndex
      end
  end.

Definition compareArrayByIndex (leftArr rightArr : list JsonValue) (path : string) : M unit :=
  let maxLength := Nat.max (List.length leftArr) (List.length rightArr) in
  indexLoop leftArr rightArr path maxLength 0%nat 0.

(** First loop of [compareArrayByHash], over the left elements that are
    still to be visited, each with its hash.  [rightArr[rightHashIndex]]
    is an element of [rightArr]: the index is one of [rightHashes], which
    is as long ([JNull] is never taken). *)
Fixpoint matchLoop (rightArr : list JsonValue) (rightHashes : list string) (path : string)
         (todo : list (JsonValue * string)) (currentIndex : Z) (targetHashes : list string)
  : M (Z * list string) :=
  match todo with
  | [] => ret (currentIndex, targetHashes)
  | (leftElem, leftHash) :: todo' =>
      let newPathIndex := join path (index_string currentIndex) in
      let currentIndex := currentIndex + 1 in
      let rightHashIndex := indexOf rightHashes leftHash in
      if 0 <=? rightHashIndex then
        compareObjects newPathIndex leftElem (nth (Z.to_nat rightHashIndex) rightArr JNull) ;;;
        matchLoop rightArr rightHashes path todo' currentIndex (targetHashes ++ [leftHash])
      else
        push (Remove newPathIndex) ;;;
        matchLoop rightArr rightHashes path todo' (currentIndex - 1) targetHashes
  end.

(** Second loop: [for (const toBeAddedHash of toBeAddedHashes)]. *)
Fixpoint addLoop (rightArr : list JsonValue) (rightHashes : list string) (path : string)
         (toBeAddedHashes : list string) (currentIndex : Z) (targetHashes : list string)
  : M (Z * list string) :=
  match toBeAddedHashes with
  | [] => ret (currentIndex, targetHashes)
  | toBeAddedHash :: rest =>
      push (Add (join path (index_string currentIndex))
                (nth (Z.to_nat (indexOf rightHashes toBeAddedHash)) rightArr JNull)) ;;;
      addLoop rightArr rightHashes path rest (currentIndex + 1)
              (targetHashes ++ [toBeAddedHash])
  end.

(** Third loop: [for (let i = rightHashes.length - 1; i >= 0; i--)],
    entered with [i + 1 = n].  It returns the shadow array it ends with. *)
Fixpoint moveLoop (rightHashes : list string) (path : string)
         (n : nat) (targetHashes : list string) : M (list string) :=
  match n with
  | O => ret targetHashes
  | S i =>
      let hash := nth i rightHashes "" in
      let targetIndex := indexOf rightHashes hash in
      let currentIndex := indexOf targetHashes hash in
      if negb (currentIndex =? targetIndex) then
        push (Move (join path (index_string currentIndex))
                   (join path (index_string targetIndex))) ;;;
        moveLoop rightHashes path i
                 (moveArrayElement "" targetHashes currentIndex targetIndex)
      else moveLoop rightHashes path i targetHashes
  end.

Definition compareArrayByHash (leftArr rightArr : list JsonValue) (path : string) : M unit :=
  match objectHash config with
  | HashFunction objectHash =>
      let leftHashes := map (fun value => objectHash value {| side := left; path := path |}) leftArr in
      let rightHashes := map (fun value => objectHash value {| side := right; path := path |}) rightArr in
      st <- matchLoop rightArr rightHashes path (combine leftArr leftHashes) 0 [] ;;
      let toBeAddedHashes :=
        filter (fun hash => negb (includes (snd st) hash)) rightHashes in
      st <- addLoop rightArr rightHashes path toBeAddedHashes (fst st) (snd st) ;;
      if array_ignoreMove config then ret tt
      else moveLoop rightHashes path (List.length rightHashes) (snd st) ;;; ret tt
  | _ => throw NoObjectHashFunction
  end.

Definition compareArrays (leftArr rightArr : list JsonValue) (path : string) : M unit :=
  if sameElements leftArr rightArr then ret tt
  else
    match objectHash config with
    | HashFalsy => compareArrayByIndex leftArr rightArr path
    | _ => compareArrayByHash leftArr rightArr path
    end.
End Reconcilers.

(** ** Object comparison *)

Definition elements (v : JsonValue) : list JsonValue :=
  match v with JArray _ elems => elems | _ => [] end.

(** The value of a property read that is known not to be [undefined]. *)
Definition defined (v : option JsonValue) : JsonValue :=
  match v with Some x => x | None => JNull end.

(** [leftValue !== rightValue] where the left side is a property read. *)
Definition strictNeq (l : option JsonValue) (r : JsonValue) : bool :=
  match l with Some lv => negb (strictEq lv r) | None => true end.

Definition properties (v : JsonValue) : list (string * JsonValue) :=
  match v with JObject _ props => props | _ => [] end.

(** The keys [for (const key in value)] enumerates. *)
Definition keys (v : JsonValue) : list string := map fst (properties v).

Section Objects.
Variable config : JsonPatchConfig.
Variable compareObjects : string -> JsonValue -> JsonValue -> M unit.

(** [hasPropertyFilter && !propertyFilter(key, { side, path })] *)
Definition filteredOut (key : string) (s : Side) (path : string) : bool :=
  match propertyFilter config with
  | Some propertyFilter => negb (propertyFilter key {| side := s; path := path |})
  | None => false
  end.

(** The own properties of [Object.prototype] (ECMAScript, Annex B
    included).  None is enumerable; all are functions but [__proto__],
    an accessor that answers the prototype of [Object.prototype]:
    [null]. *)
Definition objectPrototypeKeys : list string :=
  ["constructor"; "__defineGetter__"; "__defineSetter__"; "hasOwnProperty";
   "__lookupGetter__"; "__lookupSetter__"; "isPrototypeOf"; "propertyIsEnumerable";
   "toString"; "valueOf"; "__proto__"; "toLocaleString"].

(** [leftJsonValue[rightKey]] answers [Object.prototype] itself when the
    key is [__proto__] and the object has no own property of that name. *)
Definition readsObjectPrototype (leftProps : list (string * JsonValue)) (key : string) : bool :=
  String.eqb key "__proto__" && negb (hasKey key leftProps).

(** [compareObjects(path, Object.prototype, rightJsonValue)] on a plain
    object [rightJsonValue]: the loop over the right keys.  The left read
    [Object.prototype[rightKey]] is a function, [null] (for [__proto__])
    or [undefined]: never an array or a plain object, and [!==] any JSON
    value but [null].  [Object.prototype.hasOwnProperty] is the real
    method.  The loop over the left keys has nothing to enumerate. *)
Fixpoint compareToObjectPrototype (path : string)
         (rightProps : list (string * JsonValue)) (todo : list string) : M unit :=
  match todo with
  | [] => ret tt
  | rightKey :: todo' =>
      (if filteredOut rightKey right path then ret tt
       else
         let newPath := join path rightKey in
         let rightValue := defined (getProp rightKey rightProps) in
         let own := existsb (String.eqb rightKey) objectPrototypeKeys in
         if isJsonObject (Some rightValue) then
           if own then push (Replace newPath rightValue)
           else push (Add newPath rightValue)
         else if negb own then push (Add newPath rightValue)
         else if negb (String.eqb rightKey "__proto__" && strictEq JNull rightValue)
              then push (Replace newPath rightValue)
         else ret tt) ;;;
      compareToObjectPrototype path rightProps todo'
  end.

(** Body of [for (const rightKey in rightJsonValue)] after the filter.
    [leftValue] is [None] when [rightKey] is not an own property of the
    left object.  What the prototype chain answers then is [undefined] or
    a method of [Object.prototype], neither an array nor a plain object;
    or, for the key [__proto__], [Object.prototype] itself, of which
    [isJsonObject] holds: the code then recurses with it as left value. *)
Definition compareProperty (leftProps rightProps : list (string * JsonValue))
           (newPath rightKey : string) : M unit :=
  let leftValue := getProp rightKey leftProps in
  let rightValue := defined (getProp rightKey rightProps) in
  if isArray leftValue && isArray (Some rightValue) then
    compareArrays config compareObjects
                  (elements (defined leftValue)) (elements rightValue) newPath
  else if isJsonObject (Some rightValue) then
    if isJsonObject leftValue then
      compareObjects newPath (defined leftValue) rightValue
    else if readsObjectPrototype leftProps rightKey then
      compareToObjectPrototype newPath (properties rightValue) (keys rightValue)
    else
      own <- hasOwnProperty leftProps rightKey ;;
      if own then push (Replace newPath rightValue)
      else push (Add newPath rightValue)
  else
    own <- hasOwnProperty leftProps rightKey ;;
    if negb own then push (Add newPath rightValue)
    else if strictNeq leftValue rightValue then push (Replace newPath rightValue)
    else ret tt.

(** [for (const rightKey in rightJsonValue)], over the keys still to be
    visited. *)
Fixpoint rightKeyLoop (isArrayAtTop : bool) (path : string)
         (leftProps rightProps : list (string * JsonValue)) (todo : list string) : M unit :=
  match todo with
  | [] => ret tt
  | rightKey :: todo' =>
      (if filteredOut rightKey right path then ret tt
       else
         let newPath :=
           if isArrayAtTop && String.eqb path "" then ("/" ++ rightKey)%string
           else join path rightKey in
         compareProperty leftProps rightProps newPath rightKey) ;;;
      rightKeyLoop isArrayAtTop path leftProps rightProps todo'
  end.

(** [for (const leftKey in leftJsonValue)] *)
Fixpoint leftKeyLoop (isArrayAtTop : bool) (path : string)
         (leftProps rightProps : list (string * JsonValue)) (todo : list string) : M unit :=
  match todo with
  | [] => ret tt
  | leftKey :: todo' =>
      (own <- hasOwnProperty leftProps leftKey ;;
       if negb own || filteredOut leftKey left path then ret tt
       else
         inRight <- hasOwnProperty rightProps leftKey ;;
         if negb inRight then
           let newPath :=
             if isArrayAtTop && String.eqb path "" then ("/" ++ leftKey)%string
             else join path leftKey in
           push (Remove newPath)
         else ret tt) ;;;
      leftKeyLoop isArrayAtTop path leftProps rightProps todo'
  end.
End Objects.

(** [compareObjects path leftJsonValue rightJsonValue].  The recursion of
    the source descends into the left value; [fuel] bounds its depth. *)
Fixpoint compareObjects (config : JsonPatchConfig) (fuel : nat)
         (path : string) (leftJsonValue rightJsonValue : JsonValue) {struct fuel} : M unit :=
  match fuel with
  | O => outOfFuel
  | S fuel' =>
      let isArrayAtTop :=
        String.eqb path "" &&
        (isArray (Some leftJsonValue) && isArray (Some rightJsonValue)) in
      if isPrimitiveValue leftJsonValue || isPrimitiveValue rightJsonValue then
        if negb (strictEq leftJsonValue rightJsonValue)
        then push (Replace path rightJsonValue)
        else ret tt
      else if isArrayAtTop then
        compareArrays config (compareObjects config fuel')
                      (elements leftJsonValue) (elements rightJsonValue) ""
      else if isArray (Some leftJsonValue) || isArray (Some rightJsonValue) then
        push (Replace path rightJsonValue)
      else
        rightKeyLoop config (compareObjects config fuel') isArrayAtTop path
                     (properties leftJsonValue) (properties rightJsonValue)
                     (keys rightJsonValue) ;;;
        leftKeyLoop config isArrayAtTop path
                    (properties leftJsonValue) (properties rightJsonValue)
                    (keys leftJsonValue)
  end.

(** Nesting depth of a value: the fuel its traversal needs. *)
Fixpoint depth (v : JsonValue) : nat :=
  let fix depthElems (l : list JsonValue) : nat :=
    match l with [] => O | x :: l' => Nat.max (depth x) (depthElems l') end in
  let fix depthProps (l : list (string * JsonValue)) : nat :=
    match l with [] => O | (_, x) :: l' => Nat.max (depth x) (depthProps l') end in
  match v with
  | JArray _ elems => S (depthElems elems)
  | JObject _ props => S (depthProps props)
  | _ => O
  end.

(** [generateJSONPatch(before, after, config)]: the patch is returned in
    [Returns tt patch]. *)
Definition generateJSONPatch (before after : JsonValue) (config : JsonPatchConfig)
  : Outcome unit :=
  compareObjects config (S (depth before)) "" before after [].

(** ** Inputs of the documented examples *)

(** [v => v.id] on objects whose [id] is a number: the hash is the
    number, written here in decimal, so that two hashes are equal exactly
    when the ids are. *)
Definition hashById : ObjectHash := fun v _ =>
  match getProp "id" (properties v) with
  | Some (JNumber n) => index_string n
  | _ => "undefined"
  end.

(** [{ id: n }] *)
Definition withId (ref : nat) (n : Z) : JsonValue := JObject ref [("id", JNumber n)].

(** [[{id:1}, {id:2}]], [[{id:2}, {id:1}]], a copy of the first with
    objects of its own, and [[{id:2}, {id:3}, {id:3}]]. *)
Definition ids12 : list JsonValue := [withId 1 1; withId 2 2].
Definition ids21 : list JsonValue := [withId 4 2; withId 5 1].
Definition ids12copy : list JsonValue := [withId 6 1; withId 7 2].
Definition ids233 : list JsonValue := [withId 8 2; withId 9 3; withId 10 3].

(** [{id:1, v:1}] and [{id:1, v:2}]: two objects with one hash. *)
Definition firstOfHash1 : JsonValue := JObject 11 [("id", JNumber 1); ("v", JNumber 1)].
Definition secondOfHash1 : JsonValue := JObject 12 [("id", JNumber 1); ("v", JNumber 2)].

(** [[[1]]] *)
Definition nestedOnes : list JsonValue := [JArray 13 [JNumber 1]].

(** [[{a: [[1]]}]] *)
Definition nestedBelowKey : list JsonValue :=
  [JObject 14 [("a", JArray 15 [JArray 16 [JNumber 1]])]].

(** [[{id:1, tags:[{id:5}, {id:6}]}, {id:2}]], twice. *)
Definition taggedIds : list JsonValue :=
  [JObject 20 [("id", JNumber 1); ("tags", JArray 21 [withId 22 5; withId 23 6])];
   withId 24 2].
Definition taggedIdsCopy : list JsonValue :=
  [JObject 25 [("id", JNumber 1); ("tags", JArray 26 [withId 27 5; withId 28 6])];
   withId 29 2].

Definition hashConfig (ignoreMove : bool) : JsonPatchConfig :=
  {| objectHash := HashFunction hashById;
     propertyFilter := None;
     array_ignoreMove := ignoreMove |}.

(** A configuration with a property filter and nothing else. *)
Definition filterConfig (filter_ : PropertyFilter) : JsonPatchConfig :=
  {| objectHash := HashFalsy; propertyFilter := Some filter_; array_ignoreMove := false |}.

(** A filter that rejects the key [a] on the left side and the key [b] on
    the right side, and one that rejects the key [a/b] on both. *)
Definition rejectAleftBright : PropertyFilter := fun key context =>
  match side context with
  | left => negb (String.eqb key "a")
  | right => negb (String.eqb key "b")
  end.

Definition rejectSlashKey : PropertyFilter := fun key _ => negb (String.eqb key "a/b").

Definition isMove (op : Operation) : bool :=
  match op with Move _ _ => true | _ => false end.

Definition isAdd (op : Operation) : bool :=
  match op with Add _ _ => true | _ => false end.

Definition isRemove (op : Operation) : bool :=
  match op with Remove _ => true | _ => false end.

Definition isReplace (op : Operation) : bool :=
  match op with Replace _ _ => true | _ => false end.

(** [prepend p o]: the outcome [o] of a run started on the empty patch,
    seen from a run started on [p]. *)
Definition prepend {A} (p : Patch) (o : Outcome A) : Outcome A :=
  match o with
  | Returns a q => Returns a (p ++ q)
  | Throws e => Throws e
  | OutOfFuel => OutOfFuel
  end.

(** A computation that only pushes: it never reads or rewrites what the
    patch already holds. *)
Definition appends {A} (m : M A) : Prop :=
  forall p, m p = prepend p (m []).

(** A computation that ends, by returning or by raising an exception that
    [allowed] permits. *)
Definition ends {A} (allowed : Exception -> Prop) (m : M A) : Prop :=
  forall p,
    match m p with
    | Returns _ _ => True
    | Throws e => allowed e
    | OutOfFuel => False
    end.

(** No object of the value has an own property named [hasOwnProperty]:
    every [x.hasOwnProperty(key)] of the source then reaches
    [Object.prototype.hasOwnProperty]. *)
Fixpoint intact (v : JsonValue) : bool :=
  let fix intactElems (l : list JsonValue) : bool :=
    match l with [] => true | x :: l' => intact x && intactElems l' end in
  let fix intactProps (l : list (string * JsonValue)) : bool :=
    match l with [] => true | (_, x) :: l' => intact x && intactProps l' end in
  match v with
  | JArray _ elems => intactElems elems
  | JObject _ props => negb (hasKey "hasOwnProperty" props) && intactProps props
  | _ => true
  end.

(** [sameJSON] on the properties of two objects. *)
Fixpoint sameProperties (ls rs : list (string * JsonValue)) : bool :=
  match ls, rs with
  | [], [] => true
  | (k, x) :: ls', (k', y) :: rs' =>
      String.eqb k k' && sameJSON x y && sameProperties ls' rs'
  | _, _ => false
  end.

(** No object of the value has an own property named [constructor]:
    [isJsonObject] then holds of every object of the value. *)
Fixpoint ordinary (v : JsonValue) : bool :=
  let fix ordinaryElems (l : list JsonValue) : bool :=
    match l with [] => true | x :: l' => ordinary x && ordinaryElems l' end in
  let fix ordinaryProps (l : list (string * JsonValue)) : bool :=
    match l with [] => true | (_, x) :: l' => ordinary x && ordinaryProps l' end in
  match v with
  | JArray _ elems => ordinaryElems elems
  | JObject _ props => negb (hasKey "constructor" props) && ordinaryProps props
  | _ => true
  end.

(** ** The move batch as the specification words it

    Target positions are visited from the last to the first.  For the hash
    at a position, [currentIndex] is where the shadow sequence holds it
    and [targetIndex] where the right array first holds it; when they
    differ a move is emitted and the shadow sequence is reordered at once:
    remove at [currentIndex], insert at [targetIndex]. *)

(** First position of [x] in [l] ([length l] when there is none). *)
Fixpoint position (l : list string) (x : string) : nat :=
  match l with
  | [] => O
  | y :: rest => if String.eqb y x then O else S (position rest x)
  end.

Definition removeAt {A} (i : nat) (l : list A) : list A := firstn i l ++ skipn (S i) l.

Definition insertAt {A} (i : nat) (x : A) (l : list A) : list A := firstn i l ++ x :: skipn i l.

Definition indexPath (path : string) (i : nat) : string :=
  join path (index_string (Z.of_nat i)).

Fixpoint batchMoves (path : string) (rightHashes : list string)
         (targets : list nat) (shadow : list string) : list Operation :=
  match targets with
  | [] => []
  | i :: targets' =>
      let hash := nth i rightHashes "" in
      let currentIndex := position shadow hash in
      let targetIndex := position rightHashes hash in
      if Nat.eqb currentIndex targetIndex then batchMoves path rightHashes targets' shadow
      else Move (indexPath path currentIndex) (indexPath path targetIndex)
             :: batchMoves path rightHashes targets'
                  (insertAt targetIndex hash (removeAt currentIndex shadow))
  end.

(** The target positions of an array of [n] hashes, last to first. *)
Definition lastToFirst (n : nat) : list nat := rev (seq 0 n).

(** ** The structural pass of the hash strategy

    The first two loops of [compareArrayByHash]: they emit what is to be
    removed, compared in place and added, and return the output index and
    the shadow array [targetHashes] the move batch starts from. *)
Definition structuralPass (cmp : string -> JsonValue -> JsonValue -> M unit)
           (objectHash : ObjectHash) (leftArr rightArr : list JsonValue) (path : string)
  : M (Z * list string) :=
  let leftHashes := map (fun value => objectHash value {| side := left; path := path |}) leftArr in
  let rightHashes := map (fun value => objectHash value {| side := right; path := path |}) rightArr in
  st <- matchLoop cmp rightArr rightHashes path (combine leftArr leftHashes) 0 [] ;;
  addLoop rightArr rightHashes path
          (filter (fun hash => negb (includes (snd st) hash)) rightHashes) (fst st) (snd st).

(** The right element the hash strategy pairs with a hash: the one at the
    first position of the hash among the right hashes. *)
Definition firstWithHash (rightArr : list JsonValue) (rightHashes : list string)
           (hash : string) : JsonValue :=
  nth (position rightHashes hash) rightArr JNull.

(** The additions of the second loop: one per hash of the list, at
    consecutive output indices, each with the value of [firstWithHash]. *)
Fixpoint addOperations (rightArr : list JsonValue) (rightHashes : list string) (path : string)
         (hashes : list string) (index : Z) : list Operation :=
  match hashes with
  | [] => []
  | hash :: rest =>
      Add (join path (index_string index)) (firstWithHash rightArr rightHashes hash)
        :: addOperations rightArr rightHashes path rest (index + 1)
  end.

(** ** The comparison without the equality gate

    The closures of [generateJSONPatch] with the first line of
    [compareArrays] removed: a strategy is chosen and run whatever the
    serialisations are, for the arrays at the root and for every pair of
    array properties.  Everything else is as in the source. *)
Definition compareArraysWithoutGate (config : JsonPatchConfig)
           (cmp : string -> JsonValue -> JsonValue -> M unit)
           (leftArr rightArr : list JsonValue) (path : string) : M unit :=
  match objectHash config with
  | HashFalsy => compareArrayByIndex cmp leftArr rightArr path
  | _ => compareArrayByHash config cmp leftArr rightArr path
  end.

(** What the hash strategy needs to pair each element of two equal arrays
    with itself: a callable [objectHash] that gives the elements of the
    two sides the same hashes, pairwise distinct.  The index strategy
    needs nothing. *)
Definition pairsByPosition (config : JsonPatchConfig)
           (leftArr rightArr : list JsonValue) (path : string) : Prop :=
  match objectHash config with
  | HashFalsy => True
  | HashNotCallable => False
  | HashFunction f =>
      map (fun value => f value {| side := left; path := path |}) leftArr
      = map (fun value => f value {| side := right; path := path |}) rightArr /\
      NoDup (map (fun value => f value {| side := right; path := path |}) rightArr)
  end.

Section ObjectsWithoutGate.
Variable config : JsonPatchConfig.
Variable compareObjects : string -> JsonValue -> JsonValue -> M unit.

(** [compareProperty] calling [compareArrays] without its gate. *)
Definition comparePropertyWithoutGate (leftProps rightProps : list (string * JsonValue))
           (newPath rightKey : string) : M unit :=
  let leftValue := getProp rightKey leftProps in
  let rightValue := defined (getProp rightKey rightProps) in
  if isArray leftValue && isArray (Some rightValue) then
    compareArraysWithoutGate config compareObjects
                             (elements (defined leftValue)) (elements rightValue) newPath
  else if isJsonObject (Some rightValue) then
    if isJsonObject leftValue then
      compareObjects newPath (defined leftValue) rightValue
    else if readsObjectPrototype leftProps rightKey then
      compareToObjectPrototype config newPath (properties rightValue) (keys rightValue)
    else
      own <- hasOwnProperty leftProps rightKey ;;
      if own then push (Replace newPath rightValue)
      else push (Add newPath rightValue)
  else
    own <- hasOwnProperty leftProps rightKey ;;
    if negb own then push (Add newPath rightValue)
    else if strictNeq leftValue rightValue then push (Replace newPath rightValue)
    else ret tt.

Fixpoint rightKeyLoopWithoutGate (isArrayAtTop : bool) (path : string)
         (leftProps rightProps : list (string * JsonValue)) (todo : list string) : M unit :=
  match todo with
  | [] => ret tt
  | rightKey :: todo' =>
      (if filteredOut config rightKey right path then ret tt
       else
         let newPath :=
           if isArrayAtTop && String.eqb path "" then ("/" ++ rightKey)%string
           else join path rightKey in
         comparePropertyWithoutGate leftProps rightProps newPath rightKey) ;;;
      rightKeyLoopWithoutGate isArrayAtTop path leftProps rightProps todo'
  end.
End ObjectsWithoutGate.

(** [compareObjects] when no array comparison has the gate. *)
Fixpoint compareObjectsWithoutGate (config : JsonPatchConfig) (fuel : nat)
         (path : string) (leftJsonValue rightJsonValue : JsonValue) {struct fuel} : M unit :=
  match fuel with
  | O => outOfFuel
  | S fuel' =>
      let isArrayAtTop :=
        String.eqb path "" &&
        (isArray (Some leftJsonValue) && isArray (Some rightJsonValue)) in
      if isPrimitiveValue leftJsonValue || isPrimitiveValue rightJsonValue then
        if negb (strictEq leftJsonValue rightJsonValue)
        then push (Replace path rightJsonValue)
        else ret tt
      else if isArrayAtTop then
        compareArraysWithoutGate config (compareObjectsWithoutGate config fuel')
                                 (elements leftJsonValue) (elements rightJsonValue) ""
      else if isArray (Some leftJsonValue) || isArray (Some rightJsonValue) then
        push (Replace path rightJsonValue)
      else
        rightKeyLoopWithoutGate config (compareObjectsWithoutGate config fuel') isArrayAtTop path
                                (properties leftJsonValue) (properties rightJsonValue)
                                (keys rightJsonValue) ;;;
        leftKeyLoop config isArrayAtTop path
                    (properties leftJsonValue) (properties rightJsonValue)
                    (keys leftJsonValue)
  end.

(** No array of the value, at any depth, has an element that is itself an
    array. *)
Fixpoint flat (v : JsonValue) : bool :=
  let fix flatElems (l : list JsonValue) : bool :=
    match l with
    | [] => true
    | x :: l' => negb (isArray (Some x)) && flat x && flatElems l'
    end in
  let fix flatProps (l : list (string * JsonValue)) : bool :=
    match l with [] => true | (_, x) :: l' => flat x && flatProps l' end in
  match v with
  | JArray _ elems => flatElems elems
  | JObject _ props => flatProps props
  | _ => true
  end.

(** What the comparison without the gate needs of a left value to emit
    nothing against an equal right value. *)
Definition plainAndFlat (fuel : nat) (x : JsonValue) : Prop :=
  flat x = true /\ intact x = true /\ ordinary x = true /\ (depth x < fuel)%nat.

(** [pairsByPosition] at every pair of arrays that the comparison of two
    equal values at [path] reaches: the two values when they are arrays,
    and what is below each pair of elements and each pair of property
    values, at the path the comparison gives them.  The index strategy
    needs nothing. *)
Inductive pairsAtEveryArray (config : JsonPatchConfig)
  : string -> JsonValue -> JsonValue -> Prop :=
| pairs_array path a leftArr b rightArr :
    pairsByPosition config leftArr rightArr path ->
    (forall i x y,
        nth_error leftArr i = Some x -> nth_error rightArr i = Some y ->
        pairsAtEveryArray config (indexPath path i) x y) ->
    pairsAtEveryArray config path (JArray a leftArr) (JArray b rightArr)
| pairs_object path a leftProps b rightProps :
    (forall k u v,
        getProp k leftProps = Some u -> getProp k rightProps = Some v ->
        pairsAtEveryArray config (join path k) u v) ->
    pairsAtEveryArray config path (JObject a leftProps) (JObject b rightProps)
| pairs_primitive path x y :
    isPrimitiveValue x = true -> pairsAtEveryArray config path x y
| pairs_index path x y :
    objectHash config = HashFalsy -> pairsAtEveryArray config path x y.

(** ** Paths of the emitted operations *)

(** The [path] field of an operation. *)
Definition opPath (op : Operation) : string :=
  match op with
  | Add p _ | Remove p | Replace p _ | Move _ p | Copy _ p | Test p _ => p
  end.

(** [s] is [base] continued by at least one more segment. *)
Definition below (base s : string) : Prop :=
  exists rest, s = (base ++ "/" ++ rest)%string.

(** The [from] field of an operation that has one. *)
Definition opFrom (op : Operation) : option string :=
  match op with
  | Move from _ | Copy from _ => Some from
  | _ => None
  end.

(** Every pointer of the operation, [path] and [from], lies below
    [base]. *)
Definition belowOp (base : string) (op : Operation) : Prop :=
  below base (opPath op) /\ forall from, opFrom op = Some from -> below base from.

(** The operation addresses [base] itself and nothing else, or lies below
    [base]. *)
Definition atOrBelowOp (base : string) (op : Operation) : Prop :=
  (opPath op = base /\ opFrom op = None) \/ belowOp base op.

(** A key that cannot be mistaken for a nested path: it is not of the
    form [a/b].  Keys are joined without escaping. *)
Definition oneSegment (key : string) : Prop :=
  forall a b, key <> (a ++ "/" ++ b)%string.

(** A computation all of whose pushed operations satisfy [P]. *)
Definition emits {A} (P : Operation -> Prop) (m : M A) : Prop :=
  forall p a p', m p = Returns a p' -> exists ops, p' = p ++ ops /\ Forall P ops.

(** [!(hasPropertyFilter && !propertyFilter(key, { side, path }))] *)
Definition accepted (config : JsonPatchConfig) (s : Side) (path key : string) : bool :=
  negb (filteredOut config key s path).

(** What the visit of one right key at [newPath] may emit: an add or a
    replace of [newPath] itself, or operations further down. *)
Definition visitOp (newPath : string) (op : Operation) : Prop :=
  (opPath op = newPath /\ (isAdd op || isReplace op) = true) \/ belowOp newPath op.

(** What the pass over the right keys [todo] may emit: the operations of
    the visits of the keys the filter accepts on the right side. *)
Definition rightPassOp (config : JsonPatchConfig) (path : string) (todo : list string)
           (op : Operation) : Prop :=
  exists k, In k todo /\ accepted config right path k = true /\ visitOp (join path k) op.

(** What the pass over the left keys [todo] may emit: the removal of a key
    the filter accepts on the left side. *)
Definition leftPassOp (config : JsonPatchConfig) (path : string) (todo : list string)
           (op : Operation) : Prop :=
  exists k, In k todo /\ accepted config left path k = true /\ op = Remove (join path k).

(** ** The path helper *)

Module PathInfo.

(** [path.split('/')]: the pieces between the occurrences of [/]; a string
    without [/] is its only piece, the empty string included. *)
Fixpoint split (s : string) : list string :=
  match s with
  | EmptyString => [""]
  | String c rest =>
      if Ascii.eqb c "/" then "" :: split rest
      else match split rest with
           | segment :: others => String c segment :: others
           | [] => [String c ""]
           end
  end.

Record PathInfoResult := {
  segments : list string;
  length : nat;
  last : string
}.

(** [pathInfo(path)].  [segments[length - 1]] is an element of
    [segments], which is never empty (the default is never taken). *)
Definition pathInfo (path : string) : PathInfoResult :=
  let segments := split path in
  let length := List.length segments in
  let last := nth (length - 1) segments "" in
  {| segments := segments; length := length; last := last |}.

(** [segments.join('/')] *)
Fixpoint joinSegments (segments : list string) : string :=
  match segments with
  | [] => ""
  | [segment] => segment
  | segment :: others => (segment ++ "/" ++ joinSegments others)%string
  end.

(** The string holds no [/]. *)
Fixpoint slashFree (s : string) : bool :=
  match s with
  | EmptyString => true
  | String c rest => negb (Ascii.eqb c "/") && slashFree rest
  end.

End PathInfo.

(** ** Replaying operations on an array *)

(** The additions of the index strategy for the right elements beyond the
    left array: consecutive output indices, from [index] on. *)
Fixpoint addsFrom (path : string) (values : list JsonValue) (index : Z) : list Operation :=
  match values with
  | [] => []
  | value :: rest => Add (join path (index_string index)) value :: addsFrom path rest (index + 1)
  end.

(** The replacements of the elements [values] at consecutive indices. *)
Fixpoint replacesFrom (path : string) (values : list JsonValue) (index : Z) : list Operation :=
  match values with
  | [] => []
  | value :: rest =>
      Replace (join path (index_string index)) value :: replacesFrom path rest (index + 1)
  end.

(** The moves of [batchMoves] as pairs of indices [(from, target)]. *)
Fixpoint moveIndices (rightHashes : list string) (targets : list nat) (shadow : list string)
  : list (nat * nat) :=
  match targets with
  | [] => []
  | i :: targets' =>
      let hash := nth i rightHashes "" in
      let currentIndex := position shadow hash in
      let targetIndex := position rightHashes hash in
      if Nat.eqb currentIndex targetIndex then moveIndices rightHashes targets' shadow
      else (currentIndex, targetIndex)
             :: moveIndices rightHashes targets'
                  (insertAt targetIndex hash (removeAt currentIndex shadow))
  end.

(** A [move] applied to an array, as RFC 6902 has it: the element at
    [from] is removed, then inserted at [target] in what is left. *)
Definition applyMove {A} (d : A) (move : nat * nat) (array : list A) : list A :=
  insertAt (snd move) (nth (fst move) array d) (removeAt (fst move) array).

Definition applyMoves {A} (d : A) (moves : list (nat * nat)) (array : list A) : list A :=
  fold_left (fun array move => applyMove d move array) moves array.

(** The kinds of operation a configuration lets the algorithm emit: add,
    remove and replace always; move only with a callable [objectHash] and
    without [array.ignoreMove]; copy and test never. *)
Definition emittedKind (config : JsonPatchConfig) (op : Operation) : Prop :=
  match op with
  | Add _ _ | Remove _ | Replace _ _ => True
  | Move _ _ =>
      (exists f, objectHash config = HashFunction f) /\ array_ignoreMove config = false
  | Copy _ _ | Test _ _ => False
  end.

(** The replacements of the index strategy on two arrays of primitives:
    one per position where the two sides are not strictly equal. *)
Fixpoint positionalReplaces (path : string) (leftArr rightArr : list JsonValue) (index : Z)
  : list Operation :=
  match leftArr, rightArr with
  | x :: leftArr', y :: rightArr' =>
      (if strictEq x y then [] else [Replace (join path (index_string index)) y])
        ++ positionalReplaces path leftArr' rightArr' (index + 1)
  | _, _ => []
  end.

(** * Properties *)

(** ** The accumulator is append-only *)

Lemma prepend_nil {A} (o : Outcome A) : prepend [] o = o.
Proof. destruct o; reflexivity. Qed.

Lemma prepend_prepend {A} (p q : Patch) (o : Outcome A) :
  prepend p (prepend q o) = prepend (p ++ q) o.
Proof. destruct o; simpl; try reflexivity. now rewrite app_assoc. Qed.

Lemma appends_ret {A} (a : A) : appends (ret a).
Proof. intros p. unfold ret. simpl. now rewrite app_nil_r. Qed.

Lemma appends_push op : appends (push op).
Proof. intros p. reflexivity. Qed.

Lemma appends_throw {A} e : appends (@throw A e).
Proof. intros p. reflexivity. Qed.

Lemma appends_outOfFuel {A} : appends (@outOfFuel A).
Proof. intros p. reflexivity. Qed.

Lemma appends_bind {A B} (m : M A) (k : A -> M B) :
  appends m -> (forall a, appends (k a)) -> appends (bind m k).
Proof.
  intros Hm Hk p. unfold bind. rewrite (Hm p).
  destruct (m []) as [a q| |]; simpl; try reflexivity.
  rewrite (Hk a (p ++ q)), (Hk a q), prepend_prepend. reflexivity.
Qed.

Lemma appends_if {A} (b : bool) (m1 m2 : M A) :
  appends m1 -> appends m2 -> appends (if b then m1 else m2).
Proof. destruct b; auto. Qed.

Lemma appends_hasOwnProperty props key : appends (hasOwnProperty props key).
Proof.
  unfold hasOwnProperty. apply appends_if; [apply appends_throw | apply appends_ret].
Qed.

Create HintDb appends.

#[local] Hint Resolve appends_ret appends_push appends_throw appends_outOfFuel
  appends_hasOwnProperty : appends.

Ltac appends_step :=
  repeat first
    [ solve [ auto with appends ]
    | apply appends_bind; [| intros ]
    | apply appends_if ].

Section AppendsLoops.
Variable config : JsonPatchConfig.
Variable cmp : string -> JsonValue -> JsonValue -> M unit.
Hypothesis cmp_appends : forall path l r, appends (cmp path l r).
#[local] Hint Resolve cmp_appends : appends.

Lemma appends_indexLoop leftArr rightArr path steps :
    forall i currentIndex,
      appends (indexLoop cmp leftArr rightArr path steps i currentIndex).
  Proof.
    induction steps as [|steps IH]; intros i ci; simpl; [apply appends_ret|].
    destruct (nth_error leftArr i), (nth_error rightArr i); appends_step.
  Qed.
#[local] Hint Resolve appends_indexLoop : appends.

Lemma appends_matchLoop rightArr rightHashes path todo :
    forall currentIndex targetHashes,
      appends (matchLoop cmp rightArr rightHashes path todo currentIndex targetHashes).
  Proof.
    induction todo as [|[x h] todo IH]; intros ci th; simpl; [apply appends_ret|].
    appends_step.
  Qed.
#[local] Hint Resolve appends_matchLoop : appends.

Lemma appends_addLoop rightArr rightHashes path toBeAdded :
    forall currentIndex targetHashes,
      appends (addLoop rightArr rightHashes path toBeAdded currentIndex targetHashes).
  Proof.
    induction toBeAdded as [|h rest IH]; intros ci th; simpl; [apply appends_ret|].
    appends_step.
  Qed.
#[local] Hint Resolve appends_addLoop : appends.

Lemma appends_moveLoop rightHashes path n :
    forall targetHashes, appends (moveLoop rightHashes path n targetHashes).
  Proof.
    induction n as [|n IH]; intros th; simpl; [apply appends_ret|].
    appends_step.
  Qed.
#[local] Hint Resolve appends_moveLoop : appends.

Lemma appends_compareArrayByHash leftArr rightArr path :
    appends (compareArrayByHash config cmp leftArr rightArr path).
  Proof.
    unfold compareArrayByHash. destruct (objectHash config); auto with appends.
    appends_step.
  Qed.
#[local] Hint Resolve appends_compareArrayByHash : appends.

Lemma appends_compareArrays leftArr rightArr path :
    appends (compareArrays config cmp leftArr rightArr path).
  Proof.
    unfold compareArrays. apply appends_if; [apply appends_ret|].
    destruct (objectHash config); auto with appends.
    apply appends_indexLoop.
  Qed.
#[local] Hint Resolve appends_compareArrays : appends.

Lemma appends_compareToObjectPrototype path rp todo :
  appends (compareToObjectPrototype config path rp todo).
Proof.
  induction todo as [|k todo IH]; [apply appends_ret|].
  cbn [compareToObjectPrototype]. cbv zeta. appends_step.
Qed.
#[local] Hint Resolve appends_compareToObjectPrototype : appends.

Lemma appends_compareProperty lp rp newPath key :
    appends (compareProperty config cmp lp rp newPath key).
  Proof.
    unfold compareProperty. cbv zeta. appends_step.
  Qed.
#[local] Hint Resolve appends_compareProperty : appends.

Lemma appends_rightKeyLoop top path lp rp todo :
    appends (rightKeyLoop config cmp top path lp rp todo).
  Proof.
    induction todo as [|k todo IH]; simpl; [apply appends_ret|].
    appends_step.
  Qed.
#[local] Hint Resolve appends_rightKeyLoop : appends.

Lemma appends_leftKeyLoop top path lp rp todo :
    appends (leftKeyLoop config top path lp rp todo).
  Proof.
    induction todo as [|k todo IH]; simpl; [apply appends_ret|].
    appends_step.
  Qed.
#[local] Hint Resolve appends_leftKeyLoop : appends.
End AppendsLoops.

#[local] Hint Resolve appends_compareArrays appends_rightKeyLoop appends_leftKeyLoop : appends.

Lemma appends_compareObjects config fuel :
  forall path l r, appends (compareObjects config fuel path l r).
Proof.
  induction fuel as [|fuel IH]; intros path l r; simpl; [apply appends_outOfFuel|].
  appends_step.
Qed.
#[local] Hint Resolve appends_compareObjects : appends.

(** What a run started on [p] returns is [p] followed by what the run
    started on the empty patch returns. *)
Lemma appends_returns {A} (m : M A) p a p' :
  appends m -> m p = Returns a p' -> exists ops, m [] = Returns a ops /\ p' = p ++ ops.
Proof.
  intros Hm H. rewrite (Hm p) in H. destruct (m []) as [b q| |]; simpl in H; try discriminate.
  inversion H; subst. eauto.
Qed.

(** ** Sub-values *)

Lemma getProp_In k props v : getProp k props = Some v -> In (k, v) props.
Proof.
  induction props as [|[k' x] props IH]; simpl; [discriminate|].
  destruct (String.eqb_spec k k') as [->|_].
  - intros [= ->]. now left.
  - intros H. right. auto.
Qed.

Lemma hasKey_getProp k props : hasKey k props = true <-> exists v, getProp k props = Some v.
Proof.
  induction props as [|[k' x] props IH]; simpl.
  - split; [discriminate | intros [v H]; discriminate].
  - destruct (String.eqb k k'); simpl; [split; eauto | exact IH].
Qed.

Lemma hasKey_false_getProp k props : hasKey k props = false -> getProp k props = None.
Proof.
  intros H. destruct (getProp k props) eqn:E; [|reflexivity].
  assert (hasKey k props = true) by (apply hasKey_getProp; eauto). congruence.
Qed.

Lemma depth_elem ref l x : In x l -> (depth x < depth (JArray ref l))%nat.
Proof.
  simpl. induction l as [|y l IH]; simpl; [tauto|].
  intros [->|H]; [lia|]. specialize (IH H). lia.
Qed.

Lemma depth_prop ref props k x : In (k, x) props -> (depth x < depth (JObject ref props))%nat.
Proof.
  simpl. induction props as [|[k' y] props IH]; simpl; [tauto|].
  intros [[= -> ->]|H]; [lia|]. specialize (IH H). lia.
Qed.

Lemma intact_elem ref l x : intact (JArray ref l) = true -> In x l -> intact x = true.
Proof.
  simpl. induction l as [|y l IH]; simpl; [tauto|].
  rewrite andb_true_iff. intros [Hy Hl] [->|H]; auto.
Qed.

Lemma intact_prop ref props k x :
  intact (JObject ref props) = true -> In (k, x) props -> intact x = true.
Proof.
  simpl. rewrite andb_true_iff. intros [_ H]. revert H.
  induction props as [|[k' y] props IH]; simpl; [tauto|].
  rewrite andb_true_iff. intros [Hy Hl] [[= -> ->]|H]; auto.
Qed.

Lemma ordinary_prop ref props k x :
  ordinary (JObject ref props) = true -> In (k, x) props -> ordinary x = true.
Proof.
  simpl. rewrite andb_true_iff. intros [_ H]. revert H.
  induction props as [|[k' y] props IH]; simpl; [tauto|].
  rewrite andb_true_iff. intros [Hy Hl] [[= -> ->]|H]; auto.
Qed.

Lemma ordinary_constructor ref props :
  ordinary (JObject ref props) = true -> hasKey "constructor" props = false.
Proof.
  simpl. rewrite andb_true_iff, negb_true_iff. tauto.
Qed.

Lemma intact_hasOwnProperty ref props :
  intact (JObject ref props) = true -> hasKey "hasOwnProperty" props = false.
Proof.
  simpl. rewrite andb_true_iff, negb_true_iff. tauto.
Qed.

(** ** Serialised equality *)

Lemma sameJSON_array a ls b rs : sameJSON (JArray a ls) (JArray b rs) = sameElements ls rs.
Proof.
  simpl. revert rs. induction ls as [|x ls IH]; intros [|y rs]; simpl; reflexivity.
Qed.

Lemma sameJSON_object a ls b rs :
  sameJSON (JObject a ls) (JObject b rs) = sameProperties ls rs.
Proof.
  simpl. revert rs. induction ls as [|[k x] ls IH]; intros [|[k' y] rs]; simpl; reflexivity.
Qed.

Lemma sameJSON_refl_fuel n : forall v, (depth v < n)%nat -> sameJSON v v = true.
Proof.
  induction n as [|n IH]; intros v Hd; [lia|].
  destruct v as [| b | z | s | ref l | ref props]; try reflexivity.
  - apply eqb_reflx.
  - apply Z.eqb_refl.
  - apply String.eqb_refl.
  - rewrite sameJSON_array.
    assert (H : forall x, In x l -> sameJSON x x = true).
    { intros x Hx. apply IH. pose proof (depth_elem ref l x Hx). lia. }
    clear Hd. induction l as [|x l IHl]; simpl; [reflexivity|].
    rewrite H by now left. simpl. apply IHl. intros; apply H; now right.
  - rewrite sameJSON_object.
    assert (H : forall k x, In (k, x) props -> sameJSON x x = true).
    { intros k x Hx. apply IH. pose proof (depth_prop ref props k x Hx). lia. }
    clear Hd. induction props as [|[k x] l IHl]; simpl; [reflexivity|].
    rewrite String.eqb_refl, (H k x) by now left. simpl.
    apply IHl. intros k' x' Hin. apply (H k' x'). now right.
Qed.

Lemma sameJSON_refl v : sameJSON v v = true.
Proof. apply (sameJSON_refl_fuel (S (depth v))). lia. Qed.

Lemma sameElements_refl l : sameElements l l = true.
Proof. rewrite <- (sameJSON_array 0 l 0 l). apply sameJSON_refl. Qed.

(** Serialised-equal property lists answer every property read alike. *)
Lemma sameProperties_getProp lp rp k :
  sameProperties lp rp = true ->
  match getProp k lp, getProp k rp with
  | Some u, Some v => sameJSON u v = true
  | None, None => True
  | _, _ => False
  end.
Proof.
  revert rp. induction lp as [|[k1 x] lp IH]; intros [|[k2 y] rp]; simpl; try discriminate; auto.
  rewrite !andb_true_iff. intros [[Hk Hxy] Hrest].
  apply String.eqb_eq in Hk. subst k2.
  destruct (String.eqb k k1); [assumption | now apply IH].
Qed.

Lemma sameProperties_hasKey lp rp k :
  sameProperties lp rp = true -> hasKey k lp = hasKey k rp.
Proof.
  revert rp. induction lp as [|[k1 x] lp IH]; intros [|[k2 y] rp]; simpl; try discriminate; auto.
  rewrite !andb_true_iff. intros [[Hk Hxy] Hrest].
  apply String.eqb_eq in Hk. subst k2. now rewrite (IH rp Hrest).
Qed.

Lemma hasKey_keys k props : hasKey k props = true <-> In k (map fst props).
Proof.
  induction props as [|[k' x] props IH]; simpl; [split; [discriminate|tauto]|].
  rewrite orb_true_iff, IH, String.eqb_eq. split; intros [H|H]; auto.
Qed.

(** ** Termination and exceptions *)

Section Ends.
Context {allowed : Exception -> Prop}.

Lemma ends_ret {A} (a : A) : ends allowed (ret a).
Proof. intros p. exact I. Qed.

Lemma ends_push op : ends allowed (push op).
Proof. intros p. exact I. Qed.

Lemma ends_throw {A} e : allowed e -> ends allowed (@throw A e).
Proof. intros H p. exact H. Qed.

Lemma ends_bind {A B} (m : M A) (k : A -> M B) :
  ends allowed m -> (forall a, ends allowed (k a)) -> ends allowed (bind m k).
Proof.
  intros Hm Hk p. unfold bind. specialize (Hm p).
  destruct (m p) as [a q| |]; auto. apply Hk.
Qed.

Lemma ends_if {A} (b : bool) (m1 m2 : M A) :
  ends allowed m1 -> ends allowed m2 -> ends allowed (if b then m1 else m2).
Proof. destruct b; auto. Qed.

Lemma ends_hasOwnProperty props key :
  allowed NotAFunction \/ hasKey "hasOwnProperty" props = false ->
  ends allowed (hasOwnProperty props key).
Proof.
  intros H. unfold hasOwnProperty.
  destruct (hasKey "hasOwnProperty" props); [|apply ends_ret].
  destruct H as [H|H]; [now apply ends_throw | discriminate].
Qed.
End Ends.

Create HintDb ends.
#[local] Hint Resolve ends_ret ends_push ends_hasOwnProperty : ends.

Ltac ends_step :=
  repeat first
    [ solve [ auto with ends ]
    | apply ends_bind; [| intros ]
    | apply ends_if ].

Section EndsLoops.
Variable config : JsonPatchConfig.
Variable cmp : string -> JsonValue -> JsonValue -> M unit.
Variable allowed : Exception -> Prop.
Variables Pl Pr : JsonValue -> Prop.
Hypothesis cmp_ends : forall path l r, Pl l -> Pr r -> ends allowed (cmp path l r).
Hypothesis Pr_null : Pr JNull.
Hypothesis not_callable :
  objectHash config = HashNotCallable -> allowed NoObjectHashFunction.
#[local] Hint Resolve cmp_ends : ends.

Lemma ends_indexLoop leftArr rightArr path steps :
  Forall Pl leftArr -> Forall Pr rightArr ->
  forall i currentIndex,
    ends allowed (indexLoop cmp leftArr rightArr path steps i currentIndex).
Proof.
  intros Hl Hr. rewrite Forall_forall in Hl, Hr.
  induction steps as [|steps IH]; intros i ci; simpl; [apply ends_ret|].
  destruct (nth_error leftArr i) eqn:El, (nth_error rightArr i) eqn:Er; ends_step.
  apply cmp_ends; eauto using nth_error_In.
Qed.

Lemma ends_matchLoop rightArr rightHashes path todo :
  Forall Pl (map fst todo) -> Forall Pr rightArr ->
  forall currentIndex targetHashes,
    ends allowed (matchLoop cmp rightArr rightHashes path todo currentIndex targetHashes).
Proof.
  intros Hl Hr. rewrite Forall_forall in Hr.
  induction todo as [|[x h] todo IH]; intros ci th; simpl; [apply ends_ret|].
  inversion Hl; subst. ends_step.
  apply cmp_ends; [assumption|].
  destruct (nth_in_or_default (Z.to_nat (indexOf rightHashes h)) rightArr JNull) as [H| ->];
    auto.
Qed.

Lemma ends_addLoop rightArr rightHashes path toBeAdded :
  forall currentIndex targetHashes,
    ends allowed (addLoop rightArr rightHashes path toBeAdded currentIndex targetHashes).
Proof.
  induction toBeAdded as [|h rest IH]; intros ci th; simpl; ends_step.
Qed.

Lemma ends_moveLoop rightHashes path n :
  forall targetHashes, ends allowed (moveLoop rightHashes path n targetHashes).
Proof.
  induction n as [|n IH]; intros th; simpl; ends_step.
Qed.

Lemma fst_combine_Forall {A B} (P : A -> Prop) (l : list A) (l' : list B) :
  Forall P l -> Forall P (map fst (combine l l')).
Proof.
  intros H. revert l'. induction H as [|x l Hx Hl IH]; intros [|y l']; simpl; auto.
Qed.

Lemma ends_compareArrays leftArr rightArr path :
  Forall Pl leftArr -> Forall Pr rightArr ->
  ends allowed (compareArrays config cmp leftArr rightArr path).
Proof.
  intros Hl Hr. unfold compareArrays. apply ends_if; [apply ends_ret|].
  unfold compareArrayByHash, compareArrayByIndex.
  destruct (objectHash config) as [| |f].
  - now apply ends_indexLoop.
  - apply ends_throw. now apply not_callable.
  - ends_step.
    + apply ends_matchLoop; auto using fst_combine_Forall.
    + apply ends_addLoop.
    + apply ends_moveLoop.
Qed.

#[local] Hint Resolve ends_compareArrays : ends.

Variables lp rp : list (string * JsonValue).
Hypothesis lp_sub : forall k v, In (k, v) lp -> Pl v /\ Forall Pl (elements v).
Hypothesis rp_sub : forall k v, In (k, v) rp -> Pr v /\ Forall Pr (elements v).
Hypothesis lp_intact : allowed NotAFunction \/ hasKey "hasOwnProperty" lp = false.
Hypothesis rp_intact : allowed NotAFunction \/ hasKey "hasOwnProperty" rp = false.

Lemma ends_compareToObjectPrototype path props todo :
  ends allowed (compareToObjectPrototype config path props todo).
Proof.
  induction todo as [|k todo IH]; [apply ends_ret|].
  cbn [compareToObjectPrototype]. cbv zeta. ends_step.
Qed.
#[local] Hint Resolve ends_compareToObjectPrototype : ends.

Lemma ends_compareProperty newPath key :
  ends allowed (compareProperty config cmp lp rp newPath key).
Proof.
  unfold compareProperty. cbv zeta.
  assert (HR : Pr (defined (getProp key rp)) /\
               Forall Pr (elements (defined (getProp key rp)))).
  { destruct (getProp key rp) eqn:E; simpl; [|auto].
    apply getProp_In in E. eauto. }
  destruct HR as [HR1 HR2].
  destruct (getProp key lp) as [lv|] eqn:E; simpl.
  - apply getProp_In in E. destruct (lp_sub _ _ E) as [HL1 HL2].
    ends_step.
  - ends_step.
Qed.
#[local] Hint Resolve ends_compareProperty : ends.

Lemma ends_rightKeyLoop top path todo :
  ends allowed (rightKeyLoop config cmp top path lp rp todo).
Proof.
  induction todo as [|k todo IH]; simpl; ends_step.
Qed.

Lemma ends_leftKeyLoop top path todo :
  ends allowed (leftKeyLoop config top path lp rp todo).
Proof.
  induction todo as [|k todo IH]; simpl; ends_step.
Qed.
End EndsLoops.

(** With enough fuel the traversal ends.  It may raise the exception of
    [compareArrayByHash] when [objectHash] is truthy and not callable, and
    the [TypeError] of a shadowed [hasOwnProperty] when the inputs are not
    [intact]; [allowed] has to permit what can happen. *)
Lemma ends_compareObjects config (allowed : Exception -> Prop) fuel :
  (objectHash config = HashNotCallable -> allowed NoObjectHashFunction) ->
  forall path l r,
    (depth l < fuel)%nat ->
    allowed NotAFunction \/ intact l = true ->
    allowed NotAFunction \/ intact r = true ->
    ends allowed (compareObjects config fuel path l r).
Proof.
  intros Hhash.
  induction fuel as [|fuel IH]; intros path l r Hd Hl Hr; [lia|].
  cbn [compareObjects].
  set (Pl := fun x => (depth x < fuel)%nat /\ (allowed NotAFunction \/ intact x = true)).
  set (Pr := fun y => allowed NotAFunction \/ intact y = true).
  assert (Hcmp : forall path l r, Pl l -> Pr r ->
            ends allowed (compareObjects config fuel path l r)).
  { intros ? ? ? [? ?] ?. now apply IH. }
  assert (Helems : forall ref elems, (depth (JArray ref elems) < S fuel)%nat ->
            allowed NotAFunction \/ intact (JArray ref elems) = true -> Forall Pl elems).
  { intros ref elems Hd' Hi. apply Forall_forall. intros x Hx. split.
    - pose proof (depth_elem ref elems x Hx). lia.
    - destruct Hi; eauto using intact_elem. }
  assert (HelemsR : forall v, Pr v -> Forall Pr (elements v)).
  { intros [] Hi; simpl; auto. apply Forall_forall. intros x Hx.
    unfold Pr in *. destruct Hi; eauto using intact_elem. }
  assert (Hnull : Pr JNull) by (now right).
  destruct l as [| | | |refl ls|refl lp], r as [| | | |refr rs|refr rp];
    try (cbn [compareObjects isPrimitiveValue orb isArray andb];
         rewrite ?andb_false_r; cbn [orb]; ends_step; fail).
  - (* two arrays *)
    cbn [isPrimitiveValue orb isArray andb elements].
    rewrite andb_true_r. apply ends_if; [|ends_step].
    apply ends_compareArrays with (Pl := Pl) (Pr := Pr); eauto.
    exact (HelemsR (JArray refr rs) Hr).
  - (* two objects *)
    cbn [isPrimitiveValue orb isArray andb properties].
    rewrite andb_false_r. cbn [orb].
    assert (Hlown : allowed NotAFunction \/ hasKey "hasOwnProperty" lp = false)
      by (destruct Hl; eauto using intact_hasOwnProperty).
    assert (Hrown : allowed NotAFunction \/ hasKey "hasOwnProperty" rp = false)
      by (destruct Hr; eauto using intact_hasOwnProperty).
    apply ends_bind; [|intros _].
    + apply ends_rightKeyLoop with (Pl := Pl) (Pr := Pr); auto.
      * intros k v Hin. pose proof (depth_prop refl lp k v Hin).
        assert (allowed NotAFunction \/ intact v = true)
          by (destruct Hl; eauto using intact_prop).
        split; [split; [lia | assumption]|].
        destruct v; simpl; auto. eapply Helems; [|eassumption]. lia.
      * intros k v Hin.
        assert (Pr v) by (unfold Pr; destruct Hr; eauto using intact_prop). auto.
    + apply ends_leftKeyLoop; auto.
Qed.

(** ** Equal inputs *)

Lemma sameJSON_primitive u v :
  sameJSON u v = true -> isPrimitiveValue v = true -> strictEq u v = true.
Proof. destruct u, v; simpl; try discriminate; auto. Qed.

Lemma compareArrays_same config cmp ls rs path p :
  sameElements ls rs = true -> compareArrays config cmp ls rs path p = Returns tt p.
Proof. intros H. unfold compareArrays. now rewrite H. Qed.

Section EqualObjects.
Variable config : JsonPatchConfig.
Variable cmp : string -> JsonValue -> JsonValue -> M unit.
Variables lp rp : list (string * JsonValue).
Hypothesis same : sameProperties lp rp = true.
Hypothesis lp_intact : hasKey "hasOwnProperty" lp = false.
Hypothesis plain_sub :
  forall k u v, getProp k lp = Some u -> getProp k rp = Some v ->
    isJsonObject (Some v) = true -> forall path p, cmp path u v p = Returns tt p.
Hypothesis other_sub :
  forall k u v, getProp k lp = Some u -> getProp k rp = Some v ->
    isPrimitiveValue v = false -> isArray (Some v) = false ->
    isJsonObject (Some v) = false -> strictEq u v = true.

Lemma hasOwnProperty_left k p : hasOwnProperty lp k p = Returns (hasKey k lp) p.
Proof. unfold hasOwnProperty. now rewrite lp_intact. Qed.

Lemma hasOwnProperty_right k p : hasOwnProperty rp k p = Returns (hasKey k rp) p.
Proof.
  unfold hasOwnProperty.
  now rewrite <- (sameProperties_hasKey lp rp "hasOwnProperty" same), lp_intact.
Qed.

Lemma compareProperty_equal newPath k p :
  hasKey k rp = true -> compareProperty config cmp lp rp newPath k p = Returns tt p.
Proof.
  intros Hk. pose proof (sameProperties_getProp lp rp k same) as Hget.
  pose proof (sameProperties_hasKey lp rp k same) as Hkl. rewrite Hk in Hkl.
  apply hasKey_getProp in Hk. destruct Hk as [v Hv]. rewrite Hv in Hget.
  destruct (getProp k lp) as [u|] eqn:Hu; [|contradiction].
  unfold compareProperty. rewrite Hu, Hv. cbn [defined].
  destruct (isArray (Some u) && isArray (Some v)) eqn:Harr.
  - apply compareArrays_same.
    destruct u, v; try discriminate. now rewrite sameJSON_array in Hget.
  - destruct (isJsonObject (Some v)) eqn:Hobj.
    + assert (isJsonObject (Some u) = true) as ->.
      { destruct u, v; try discriminate.
        rewrite sameJSON_object in Hget. cbn [isJsonObject] in *.
        now rewrite (sameProperties_hasKey _ _ "constructor" Hget). }
      eauto.
    + unfold bind. rewrite hasOwnProperty_left, Hkl. cbn [negb strictNeq].
      assert (strictEq u v = true) as ->; [|reflexivity].
      destruct (isPrimitiveValue v) eqn:Hprim; [now apply sameJSON_primitive|].
      apply (other_sub k); auto.
      destruct u, v; try discriminate; reflexivity.
Qed.

Lemma rightKeyLoop_equal top path todo p :
  Forall (fun k => hasKey k rp = true) todo ->
  rightKeyLoop config cmp top path lp rp todo p = Returns tt p.
Proof.
  induction 1 as [|k todo Hk _ IH]; simpl; [reflexivity|].
  unfold bind at 1.
  destruct (filteredOut config k right path); [exact IH|].
  now rewrite compareProperty_equal.
Qed.

Lemma leftKeyLoop_equal top path todo p :
  Forall (fun k => hasKey k lp = true) todo ->
  leftKeyLoop config top path lp rp todo p = Returns tt p.
Proof.
  induction 1 as [|k todo Hk _ IH]; simpl; [reflexivity|].
  unfold bind. rewrite hasOwnProperty_left, Hk. cbn [negb orb].
  destruct (filteredOut config k left path); [exact IH|].
  rewrite hasOwnProperty_right, <- (sameProperties_hasKey lp rp k same), Hk.
  exact IH.
Qed.
End EqualObjects.

Lemma keys_hasKey props : Forall (fun k => hasKey k props = true) (map fst props).
Proof. apply Forall_forall. intros k. apply hasKey_keys. Qed.

(** Two serialised-equal values whose objects leave [hasOwnProperty]
    alone, and which are one and the same value or have no own property
    named [constructor], compare without an operation; an array is
    compared at the root only. *)
Lemma compareObjects_equal config fuel :
  forall path x y p,
    (depth x < fuel)%nat ->
    sameJSON x y = true -> intact x = true ->
    x = y \/ ordinary x = true ->
    isArray (Some x) = false \/ path = "" ->
    compareObjects config fuel path x y p = Returns tt p.
Proof.
  induction fuel as [|fuel IH]; intros path x y p Hd Hsame Hin Hxy Hpath; [lia|].
  destruct x as [| | | |refl ls|refl lp], y as [| | | |refr rs|refr rp];
    try discriminate Hsame;
    try (cbn [compareObjects isPrimitiveValue orb];
         rewrite (sameJSON_primitive _ _ Hsame eq_refl); reflexivity).
  - destruct Hpath as [Hpath| ->]; [discriminate Hpath|].
    cbn. apply compareArrays_same. now rewrite sameJSON_array in Hsame.
  - cbn [compareObjects isPrimitiveValue orb isArray andb properties keys].
    rewrite andb_false_r. cbn [orb].
    rewrite sameJSON_object in Hsame.
    pose proof (intact_hasOwnProperty _ _ Hin) as Hown.
    unfold bind. rewrite rightKeyLoop_equal; auto using keys_hasKey.
    + apply leftKeyLoop_equal; auto using keys_hasKey.
    + intros k u v Hu Hv Hobj path' p'.
      pose proof (sameProperties_getProp lp rp k Hsame) as Huv. rewrite Hu, Hv in Huv.
      pose proof (getProp_In _ _ _ Hu) as Hinu.
      pose proof (depth_prop refl lp k u Hinu).
      apply IH; eauto using intact_prop; try lia.
      * destruct Hxy as [E|Hord]; [left | right; eauto using ordinary_prop].
        injection E as -> ->. congruence.
      * left. destruct u, v; try discriminate; reflexivity.
    + intros k u v Hu Hv Hprim Harr Hobj.
      pose proof (sameProperties_getProp lp rp k Hsame) as Huv. rewrite Hu, Hv in Huv.
      destruct Hxy as [E|Hord].
      * injection E as -> ->. assert (u = v) as -> by congruence.
        destruct v; try discriminate. apply Nat.eqb_refl.
      * exfalso. apply getProp_In in Hu.
        pose proof (ordinary_prop _ _ _ _ Hord Hu) as Hu'.
        destruct u as [| | | | |ru up], v as [| | | | |rv vp]; try discriminate.
        rewrite sameJSON_object in Huv. cbn [isJsonObject] in Hobj.
        rewrite <- (sameProperties_hasKey _ _ "constructor" Huv) in Hobj.
        rewrite (ordinary_constructor _ _ Hu') in Hobj. discriminate.
Qed.

(** ** Hash lookups *)

Lemma indexOf_bounds l x : -1 <= indexOf l x < Z.of_nat (List.length l).
Proof.
  induction l as [|y l IH]; simpl List.length; simpl indexOf; [lia|].
  destruct (String.eqb y x); [lia|].
  destruct (Z.ltb_spec (indexOf l x) 0); lia.
Qed.

Lemma indexOf_position l x :
  In x l -> indexOf l x = Z.of_nat (position l x) /\ (position l x < List.length l)%nat.
Proof.
  induction l as [|y l IH]; simpl; [tauto|].
  intros Hin. destruct (String.eqb_spec y x) as [->|Hne]; [split; lia|].
  destruct Hin as [->|Hin]; [congruence|].
  destruct (IH Hin) as [-> Hlt].
  destruct (Z.ltb_spec (Z.of_nat (position l x)) 0); split; lia.
Qed.

Lemma indexOf_absent l x : ~ In x l -> indexOf l x = -1.
Proof.
  induction l as [|y l IH]; simpl; [reflexivity|].
  intros Hnot. destruct (String.eqb_spec y x) as [->|Hne]; [tauto|].
  rewrite IH by tauto. reflexivity.
Qed.

Lemma indexOf_nonneg l x : 0 <= indexOf l x <-> In x l.
Proof.
  split.
  - intros H. destruct (in_dec string_dec x l) as [Hin|Hnot]; [assumption|].
    rewrite (indexOf_absent l x Hnot) in H. lia.
  - intros Hin. destruct (indexOf_position l x Hin) as [-> _]. lia.
Qed.

(** [position] finds the first occurrence. *)
Lemma position_first l x :
  In x l ->
  nth_error l (position l x) = Some x /\
  forall i, (i < position l x)%nat -> nth_error l i <> Some x.
Proof.
  induction l as [|y l IH]; simpl; [tauto|].
  intros Hin. destruct (String.eqb_spec y x) as [->|Hne].
  - split; [reflexivity | intros i Hi; lia].
  - destruct Hin as [->|Hin]; [congruence|]. destruct (IH Hin) as [H1 H2].
    split; [exact H1|]. intros [|i] Hi; simpl; [congruence|]. apply H2. lia.
Qed.

Lemma includes_In l x : includes l x = true <-> In x l.
Proof.
  unfold includes. rewrite existsb_exists. split.
  - intros [y [Hy E]]. apply String.eqb_eq in E. now subst.
  - intros H. exists x. split; [assumption | apply String.eqb_refl].
Qed.

Lemma position_nth_NoDup l i :
  NoDup l -> (i < List.length l)%nat -> position l (nth i l "") = i.
Proof.
  intros Hnd. revert i. induction Hnd as [|y l Hy Hnd IH]; intros i Hi; simpl in *; [lia|].
  destruct i as [|i].
  - now rewrite String.eqb_refl.
  - destruct (String.eqb_spec y (nth i l "")) as [E|_].
    + exfalso. apply Hy. rewrite E. apply nth_In. lia.
    + rewrite IH by lia. reflexivity.
Qed.

(** ** The move batch *)

Lemma firstn_min {A} (t : nat) (l : list A) : firstn (Nat.min t (List.length l)) l = firstn t l.
Proof.
  destruct (Nat.le_ge_cases t (List.length l)) as [H|H].
  - now rewrite Nat.min_l.
  - rewrite Nat.min_r by assumption. now rewrite firstn_all, firstn_all2.
Qed.

Lemma skipn_min {A} (t : nat) (l : list A) : skipn (Nat.min t (List.length l)) l = skipn t l.
Proof.
  destruct (Nat.le_ge_cases t (List.length l)) as [H|H].
  - now rewrite Nat.min_l.
  - rewrite Nat.min_r by assumption. now rewrite skipn_all, skipn_all2.
Qed.

Lemma spliceStart_nat len t : spliceStart (Z.of_nat len) (Z.of_nat t) = Nat.min t len.
Proof.
  unfold spliceStart. destruct (Z.ltb_spec (Z.of_nat t) 0); lia.
Qed.

(** On an index inside the array, [moveArrayElement] removes there and
    inserts at the target, which [splice] clamps to the array. *)
Lemma moveArrayElement_insert_remove (shadow : list string) (c t : nat) :
  (c < List.length shadow)%nat ->
  moveArrayElement "" shadow (Z.of_nat c) (Z.of_nat t)
  = insertAt t (nth c shadow "") (removeAt c shadow).
Proof.
  intros Hc. unfold moveArrayElement, insertAt. fold (removeAt c shadow).
  rewrite !spliceStart_nat. rewrite (Nat.min_l c) by lia.
  fold (removeAt c shadow). now rewrite firstn_min, skipn_min.
Qed.

Lemma split_at {A} (d : A) (c : nat) (l : list A) :
  (c < List.length l)%nat -> l = firstn c l ++ nth c l d :: skipn (S c) l.
Proof.
  revert c. induction l as [|x l IH]; intros c Hc; simpl in Hc; [lia|].
  destruct c as [|c]; simpl; [reflexivity|]. f_equal. apply IH. lia.
Qed.

Lemma In_insert_remove (l : list string) (c t : nat) (x y : string) :
  nth_error l c = Some x ->
  In y (insertAt t x (removeAt c l)) <-> In y l.
Proof.
  intros Hx.
  assert (Hc : (c < List.length l)%nat) by (apply nth_error_Some; congruence).
  unfold insertAt. rewrite in_app_iff. simpl.
  assert (E : In y (removeAt c l) \/ x = y <-> In y l).
  { rewrite (split_at "" c l Hc) at 2. rewrite (nth_error_nth _ _ "" Hx).
    unfold removeAt. rewrite !in_app_iff. simpl. tauto. }
  rewrite <- E. rewrite <- (firstn_skipn t (removeAt c l)) at 3.
  rewrite in_app_iff. tauto.
Qed.

Lemma lastToFirst_S n : lastToFirst (S n) = n :: lastToFirst n.
Proof. unfold lastToFirst. rewrite seq_S, rev_app_distr. reflexivity. Qed.

(** The third loop emits the batch of the specification, as long as the
    shadow array holds every hash of the right array. *)
Lemma moveLoop_batchMoves rightHashes path n :
  (n <= List.length rightHashes)%nat ->
  forall shadow p,
    (forall h, In h rightHashes -> In h shadow) ->
    exists shadow',
      moveLoop rightHashes path n shadow p
      = Returns shadow' (p ++ batchMoves path rightHashes (lastToFirst n) shadow).
Proof.
  induction n as [|i IH]; intros Hn shadow p Hall.
  - exists shadow. simpl. unfold ret. now rewrite app_nil_r.
  - rewrite lastToFirst_S. cbn [moveLoop batchMoves].
    set (hash := nth i rightHashes "").
    assert (Hr : In hash rightHashes) by (apply nth_In; lia).
    destruct (indexOf_position rightHashes hash Hr) as [-> _].
    destruct (indexOf_position shadow hash (Hall _ Hr)) as [-> Hc].
    assert (E : (Z.of_nat (position shadow hash) =? Z.of_nat (position rightHashes hash))
                = Nat.eqb (position shadow hash) (position rightHashes hash)).
    { destruct (Z.eqb_spec (Z.of_nat (position shadow hash))
                           (Z.of_nat (position rightHashes hash)));
        destruct (Nat.eqb_spec (position shadow hash) (position rightHashes hash)); lia. }
    rewrite E. destruct (Nat.eqb _ _); cbn [negb].
    + apply IH; [lia | assumption].
    + unfold bind, push. rewrite moveArrayElement_insert_remove by assumption.
      destruct (position_first shadow hash (Hall _ Hr)) as [Hnth _].
      rewrite (nth_error_nth _ _ "" Hnth).
      destruct (IH ltac:(lia)
                   (insertAt (position rightHashes hash) hash
                             (removeAt (position shadow hash) shadow))
                   (p ++ [Move (join path (index_string (Z.of_nat (position shadow hash))))
                               (join path (index_string (Z.of_nat (position rightHashes hash))))]))
        as [shadow' Hs].
      * intros h Hh. apply (In_insert_remove _ _ _ _ _ Hnth). auto.
      * exists shadow'. rewrite Hs. now rewrite <- app_assoc.
Qed.

(** ** The structural pass *)

Lemma bind_assoc {A B C} (m : M A) (k : A -> M B) (k' : B -> M C) :
  forall p, bind (bind m k) k' p = bind m (fun a => bind (k a) k') p.
Proof. intros p. unfold bind. destruct (m p); reflexivity. Qed.

Lemma compareArrayByHash_structuralPass config cmp f leftArr rightArr path p :
  objectHash config = HashFunction f ->
  compareArrayByHash config cmp leftArr rightArr path p
  = (st <- structuralPass cmp f leftArr rightArr path ;;
     if array_ignoreMove config then ret tt
     else moveLoop (map (fun value => f value {| side := right; path := path |}) rightArr)
                   path (List.length rightArr) (snd st) ;;; ret tt) p.
Proof.
  intros Hf. unfold compareArrayByHash, structuralPass. rewrite Hf.
  rewrite bind_assoc, length_map. reflexivity.
Qed.

(** What the first loop returns: the hashes it kept, in left order, after
    those it started with. *)
Lemma matchLoop_returns cmp rightArr rightHashes path todo :
  forall ci th p st q,
    matchLoop cmp rightArr rightHashes path todo ci th p = Returns st q ->
    let kept := filter (includes rightHashes) (map snd todo) in
    st = (ci + Z.of_nat (List.length kept), th ++ kept).
Proof.
  induction todo as [|[x h] todo IH]; intros ci th p st q H; simpl in *.
  - inversion H; subst. now rewrite Z.add_0_r, app_nil_r.
  - unfold bind in H.
    destruct (Z.leb_spec 0 (indexOf rightHashes h)) as [Hge|Hlt].
    + apply indexOf_nonneg in Hge. apply includes_In in Hge. rewrite Hge.
      destruct (cmp _ x _ p) as [[] p1| |]; try discriminate.
      apply IH in H. rewrite H. simpl List.length. rewrite <- app_assoc.
      f_equal. lia.
    + assert (includes rightHashes h = false) as ->.
      { destruct (includes rightHashes h) eqn:E; [|reflexivity].
        apply includes_In, indexOf_nonneg in E. lia. }
      unfold push in H. apply IH in H. rewrite H. f_equal. lia.
Qed.

(** What the second loop does: it always returns, having pushed
    [addOperations]. *)
Lemma addLoop_returns rightArr rightHashes path toBeAdded :
  Forall (fun h => In h rightHashes) toBeAdded ->
  forall ci th p,
    addLoop rightArr rightHashes path toBeAdded ci th p
    = Returns (ci + Z.of_nat (List.length toBeAdded), th ++ toBeAdded)
              (p ++ addOperations rightArr rightHashes path toBeAdded ci).
Proof.
  induction 1 as [|h rest Hh _ IH]; intros ci th p; simpl.
  - unfold ret. now rewrite Z.add_0_r, !app_nil_r.
  - unfold bind, push. rewrite IH. rewrite <- !app_assoc. simpl.
    destruct (indexOf_position rightHashes h Hh) as [-> _]. rewrite Nat2Z.id.
    unfold firstWithHash. do 2 f_equal. lia.
Qed.

Lemma toBeAdded_in_right (th rightHashes : list string) :
  Forall (fun h => In h rightHashes)
         (filter (fun hash => negb (includes th hash)) rightHashes).
Proof. apply Forall_forall. intros h Hh. apply filter_In in Hh. tauto. Qed.

(** After the structural pass the shadow array holds every right hash. *)
Lemma structuralPass_shadow cmp f leftArr rightArr path p st q :
  structuralPass cmp f leftArr rightArr path p = Returns st q ->
  forall h, In h (map (fun value => f value {| side := right; path := path |}) rightArr) ->
            In h (snd st).
Proof.
  unfold structuralPass, bind. intros H h Hh.
  destruct (matchLoop _ _ _ _ _ _ _ p) as [st1 q1| |]; try discriminate.
  rewrite addLoop_returns in H by apply toBeAdded_in_right.
  inversion H; subst. simpl. apply in_app_iff.
  destruct (includes (snd st1) h) eqn:E.
  - left. now apply includes_In.
  - right. apply filter_In. split; [assumption|]. now rewrite E.
Qed.

Lemma batchMoves_isMove path rightHashes targets :
  forall shadow, forallb isMove (batchMoves path rightHashes targets shadow) = true.
Proof.
  induction targets as [|i targets IH]; intros shadow; simpl; [reflexivity|].
  destruct (Nat.eqb _ _); simpl; auto.
Qed.

(** ** Documented examples *)

(** C1: with [objectHash = v => v.id], the patch from [[{id:1},{id:2}]] to
    [[{id:2},{id:1}]] is one move, of the element at index 0 to index 1,
    and holds no add, remove or replace.  The identities of the arrays
    and objects do not matter. *)
Theorem hash_array_move_detection :
  forall a b c d e f : nat,
    generateJSONPatch (JArray a [withId b 1; withId c 2])
                      (JArray d [withId e 2; withId f 1])
                      (hashConfig false)
    = Returns tt [Move "/0" "/1"].
Proof. intros. vm_compute. reflexivity. Qed.

(** C2 as amended: the patch from [[1,2,3]] to [[1,3]] without an
    [objectHash] is a replace of index 1 by 3 followed by the removal of
    index 2: the comparison is positional.  There is no move. *)
Theorem index_array_replace_then_remove :
  forall a b : nat,
    generateJSONPatch (JArray a [JNumber 1; JNumber 2; JNumber 3])
                      (JArray b [JNumber 1; JNumber 3])
                      emptyConfig
    = Returns tt [Replace "/1" (JNumber 3); Remove "/2"].
Proof. intros. vm_compute. reflexivity. Qed.

(** C2 as stated fails: the patch from [[1,2,3]] to [[1,3]] is not a
    single remove operation. *)
Lemma index_array_not_single_remove :
  ~ exists path,
      generateJSONPatch (JArray 0 [JNumber 1; JNumber 2; JNumber 3])
                        (JArray 1 [JNumber 1; JNumber 3])
                        emptyConfig
      = Returns tt [Remove path].
Proof. intros [path H]. vm_compute in H. discriminate H. Qed.

(** C6: same arrays with [array.ignoreMove] set: the elements are matched
    by hash, found equal, and no move is emitted; the patch is empty. *)
Theorem ignoreMove_suppression :
  forall a b c d e f : nat,
    generateJSONPatch (JArray a [withId b 1; withId c 2])
                      (JArray d [withId e 2; withId f 1])
                      (hashConfig true)
    = Returns tt [].
Proof. intros. vm_compute. reflexivity. Qed.

(** C7: from [{a:1,b:2}] to [{b:3,c:4}] the patch is replace [/b] by 3,
    add [/c] with 4, remove [/a], in that order: the pass over the right
    keys comes before the removals of left-only keys. *)
Theorem object_add_remove_replace :
  forall a b : nat,
    generateJSONPatch (JObject a [("a", JNumber 1); ("b", JNumber 2)])
                      (JObject b [("b", JNumber 3); ("c", JNumber 4)])
                      emptyConfig
    = Returns tt [Replace "/b" (JNumber 3); Add "/c" (JNumber 4); Remove "/a"].
Proof. intros. vm_compute. reflexivity. Qed.

(** ** Equality gate *)

(** X5: a value whose objects leave [hasOwnProperty] alone, compared with
    itself, gives the empty patch under every configuration. *)
Theorem generateJSONPatch_same_value :
  forall (a : JsonValue) (config : JsonPatchConfig),
    intact a = true -> generateJSONPatch a a config = Returns tt [].
Proof.
  intros a config Ha. unfold generateJSONPatch.
  apply compareObjects_equal; auto using sameJSON_refl.
Qed.

(** C3 fails on the code at [a = { hasOwnProperty: 1 }]: comparing the
    value with itself reaches [leftJsonValue.hasOwnProperty(rightKey)],
    which calls the number [1] and throws a [TypeError]; no patch is
    returned.  The claim asks for the empty patch. *)
Theorem same_value_with_own_hasOwnProperty_throws :
  forall ref : nat,
    let a := JObject ref [("hasOwnProperty", JNumber 1)] in
    generateJSONPatch a a emptyConfig = Throws NotAFunction.
Proof. intros. vm_compute. reflexivity. Qed.

(** ** Exceptions *)

(** [compareArrays] on two arrays that differ, with an [objectHash] that
    is truthy and not callable, throws the configuration error. *)
Lemma compareArrays_not_callable config cmp leftArr rightArr path p :
  objectHash config = HashNotCallable ->
  sameElements leftArr rightArr = false ->
  compareArrays config cmp leftArr rightArr path p = Throws NoObjectHashFunction.
Proof.
  intros Hh Hs. unfold compareArrays, compareArrayByHash. now rewrite Hs, Hh.
Qed.

(** [compareArrayByHash] called without a callable [objectHash] throws
    before anything else. *)
Lemma compareArrayByHash_without_function config cmp leftArr rightArr path p :
  (forall f, objectHash config <> HashFunction f) ->
  compareArrayByHash config cmp leftArr rightArr path p = Throws NoObjectHashFunction.
Proof.
  intros H. unfold compareArrayByHash.
  destruct (objectHash config) as [| |f]; try reflexivity. now destruct (H f).
Qed.

(** The traversal always ends: the fuel [generateJSONPatch] provides is
    enough on every input. *)
Lemma generateJSONPatch_terminates before after config :
  generateJSONPatch before after config <> OutOfFuel.
Proof.
  unfold generateJSONPatch.
  pose proof (ends_compareObjects config (fun _ => True) (S (depth before))
                (fun _ => I) "" before after (Nat.lt_succ_diag_r _)
                (or_introl I) (or_introl I) []) as H.
  intros E. now rewrite E in H.
Qed.

(** On inputs whose objects leave [hasOwnProperty] alone the call returns
    a patch, unless [objectHash] is truthy and not callable, in which case
    it may also throw the error of [compareArrayByHash]. *)
Lemma generateJSONPatch_total before after config :
  intact before = true -> intact after = true ->
  match generateJSONPatch before after config with
  | Returns _ _ => True
  | Throws e => e = NoObjectHashFunction /\ objectHash config = HashNotCallable
  | OutOfFuel => False
  end.
Proof.
  intros Hb Ha. unfold generateJSONPatch.
  apply (ends_compareObjects config
           (fun e => e = NoObjectHashFunction /\ objectHash config = HashNotCallable));
    auto.
Qed.

(** C5 fails on the code at [before = { hasOwnProperty: 1 }],
    [after = { hasOwnProperty: 2 }] with the empty configuration: no hash
    comparison is involved, and the call throws the [TypeError] of
    [leftJsonValue.hasOwnProperty(rightKey)] instead of completing. *)
Theorem own_hasOwnProperty_throws_TypeError :
  forall ref ref' : nat,
    generateJSONPatch (JObject ref [("hasOwnProperty", JNumber 1)])
                      (JObject ref' [("hasOwnProperty", JNumber 2)])
                      emptyConfig
    = Throws NotAFunction.
Proof. intros. vm_compute. reflexivity. Qed.

(** ** Move operations of one array reconciliation *)

Lemma appends_structuralPass cmp f leftArr rightArr path :
  (forall path l r, appends (cmp path l r)) ->
  appends (structuralPass cmp f leftArr rightArr path).
Proof.
  intros Hcmp. unfold structuralPass. apply appends_bind.
  - now apply appends_matchLoop.
  - intros st. apply appends_addLoop.
Qed.

(** C4: in one hash reconciliation of an array, the patch grows by what
    the structural pass emits for the array and its elements (removals,
    nested comparisons, additions), followed by the move batch and
    nothing else.  The batch holds moves only; it is the one the
    specification describes: target positions are visited from the last
    to the first, the [from] index of each move is the position of the
    hash in the shadow sequence as the earlier moves of the batch left it,
    and the shadow sequence is reordered (remove at [from], insert at the
    target) right after each move. *)
Theorem moves_come_last_from_last_to_first :
  forall config f fuel leftArr rightArr path p p',
    objectHash config = HashFunction f ->
    array_ignoreMove config = false ->
    compareArrayByHash config (compareObjects config fuel) leftArr rightArr path p
    = Returns tt p' ->
    let rightHashes := map (fun value => f value {| side := right; path := path |}) rightArr in
    let targets := lastToFirst (List.length rightHashes) in
    exists index shadow structural,
      structuralPass (compareObjects config fuel) f leftArr rightArr path []
      = Returns (index, shadow) structural /\
      p' = p ++ structural ++ batchMoves path rightHashes targets shadow /\
      forallb isMove (batchMoves path rightHashes targets shadow) = true.
Proof.
  intros config f fuel leftArr rightArr path p p' Hf Hmove H rightHashes targets.
  rewrite (compareArrayByHash_structuralPass _ _ f) in H by assumption.
  rewrite Hmove in H. unfold bind in H.
  pose proof (appends_structuralPass (compareObjects config fuel) f leftArr rightArr path
                (appends_compareObjects config fuel) p) as Hp.
  rewrite Hp in H.
  destruct (structuralPass _ f leftArr rightArr path []) as [[index shadow] structural| |] eqn:Hs;
    try discriminate H.
  simpl in H.
  destruct (moveLoop_batchMoves rightHashes path (List.length rightHashes) (Nat.le_refl _)
              shadow (p ++ structural)
              (structuralPass_shadow _ _ _ _ _ _ _ _ Hs)) as [shadow' Hm].
  assert (Hlen : List.length rightArr = List.length rightHashes)
    by (unfold rightHashes; now rewrite length_map).
  fold rightHashes in H. rewrite Hlen, Hm in H. inversion H; subst.
  exists index, shadow, structural. repeat split.
  - unfold targets. now rewrite <- app_assoc.
  - apply batchMoves_isMove.
Qed.

(** C4 at the arrays of the documented example. *)
Lemma moves_come_last_from_last_to_first_witness :
  exists index shadow structural,
    structuralPass (compareObjects (hashConfig false) 3) hashById ids12 ids21 "" []
    = Returns (index, shadow) structural /\
    [Move "/0" "/1"]
    = [] ++ structural ++ batchMoves "" ["2"; "1"] (lastToFirst 2) shadow /\
    forallb isMove (batchMoves "" ["2"; "1"] (lastToFirst 2) shadow) = true.
Proof.
  apply (moves_come_last_from_last_to_first
           (hashConfig false) hashById 3%nat ids12 ids21 "" [] [Move "/0" "/1"]
           eq_refl eq_refl).
  vm_compute. reflexivity.
Defined.

(** ** Matching by first occurrence *)

Lemma snd_combine_map {A B} (g : A -> B) (l : list A) :
  map snd (combine l (map g l)) = map g l.
Proof. induction l as [|x l IH]; simpl; [reflexivity | now rewrite IH]. Qed.

(** One iteration of the first loop on a left element whose hash occurs
    on the right: the element is compared with [firstWithHash]. *)
Lemma matchLoop_matched cmp rightArr rightHashes path x h todo ci th p :
  In h rightHashes ->
  matchLoop cmp rightArr rightHashes path ((x, h) :: todo) ci th p
  = (cmp (join path (index_string ci)) x (firstWithHash rightArr rightHashes h) ;;;
     matchLoop cmp rightArr rightHashes path todo (ci + 1) (th ++ [h])) p.
Proof.
  intros Hh. cbn [matchLoop].
  destruct (indexOf_position rightHashes h Hh) as [-> _]. rewrite Nat2Z.id.
  destruct (Z.leb_spec 0 (Z.of_nat (position rightHashes h))); [reflexivity | lia].
Qed.

(** C10 as amended.  In the hash strategy a left element whose hash occurs
    on the right is compared with the right element at the first right
    position of that hash, whatever the number of left or right elements
    with that hash.  The additions are one per right position whose hash
    was not matched from the left, duplicates of a hash included, in right
    order, and each of them carries the value at the first right position
    of its hash. *)
Theorem hash_matching_by_first_occurrence :
  forall cmp f leftArr rightArr path p index shadow q,
    let leftHashes := map (fun value => f value {| side := left; path := path |}) leftArr in
    let rightHashes := map (fun value => f value {| side := right; path := path |}) rightArr in
    structuralPass cmp f leftArr rightArr path p = Returns (index, shadow) q ->
    (forall x h todo ci th p0,
        In h rightHashes ->
        matchLoop cmp rightArr rightHashes path ((x, h) :: todo) ci th p0
        = (cmp (join path (index_string ci)) x (firstWithHash rightArr rightHashes h) ;;;
           matchLoop cmp rightArr rightHashes path todo (ci + 1) (th ++ [h])) p0) /\
    (forall h,
        In h rightHashes ->
        nth_error rightHashes (position rightHashes h) = Some h /\
        forall i, (i < position rightHashes h)%nat -> nth_error rightHashes i <> Some h) /\
    exists index1 q1,
      let matched := filter (includes rightHashes) leftHashes in
      let toBeAdded := filter (fun hash => negb (includes matched hash)) rightHashes in
      matchLoop cmp rightArr rightHashes path (combine leftArr leftHashes) 0 [] p
      = Returns (index1, matched) q1 /\
      q = q1 ++ addOperations rightArr rightHashes path toBeAdded index1 /\
      shadow = matched ++ toBeAdded /\
      index = index1 + Z.of_nat (List.length toBeAdded).
Proof.
  intros cmp f leftArr rightArr path p index shadow q leftHashes rightHashes H.
  split; [|split].
  - intros. now apply matchLoop_matched.
  - intros h Hh. now apply position_first.
  - unfold structuralPass, bind in H. fold leftHashes rightHashes in H.
    destruct (matchLoop cmp rightArr rightHashes path (combine leftArr leftHashes) 0 [] p)
      as [st1 q1| |] eqn:Hm; try discriminate H.
    pose proof (matchLoop_returns _ _ _ _ _ _ _ _ _ _ Hm) as Hst. cbv zeta in Hst.
    unfold leftHashes in Hst at 1 2. rewrite snd_combine_map in Hst.
    fold leftHashes in Hst. simpl in Hst. subst st1.
    rewrite addLoop_returns in H by apply toBeAdded_in_right.
    cbn [fst snd] in H. inversion H; subst.
    eexists _, q1. cbv zeta. repeat split; reflexivity.
Qed.

(** C10 at [[{id:1}, {id:2}]] against [[{id:2}, {id:3}, {id:3}]]: the
    first is removed, the second kept, and [{id:3}] is added twice, each
    time with the first of the two right objects. *)
Lemma hash_matching_by_first_occurrence_witness :
  exists index1 q1,
    matchLoop (compareObjects (hashConfig false) 3) ids233 ["2"; "3"; "3"] ""
              (combine ids12 ["1"; "2"]) 0 [] []
    = Returns (index1, ["2"]) q1 /\
    [Remove "/0"; Add "/1" (withId 9 3); Add "/2" (withId 9 3)]
    = q1 ++ addOperations ids233 ["2"; "3"; "3"] "" ["3"; "3"] index1 /\
    ["2"; "3"; "3"] = ["2"] ++ ["3"; "3"] /\
    3 = index1 + 2.
Proof.
  apply (hash_matching_by_first_occurrence
           (compareObjects (hashConfig false) 3) hashById ids12 ids233 "" []
           3 ["2"; "3"; "3"]
           [Remove "/0"; Add "/1" (withId 9 3); Add "/2" (withId 9 3)]).
  vm_compute. reflexivity.
Defined.

(** C10 as stated fails: [[{id:1,v:1}, {id:1,v:2}]] has one hash, never
    matched from the empty left array, and the patch holds two
    additions, both with the value of the first right occurrence. *)
Lemma duplicate_right_hash_is_added_twice :
  hashById firstOfHash1 {| side := right; path := "" |}
  = hashById secondOfHash1 {| side := right; path := "" |} /\
  generateJSONPatch (JArray 0 []) (JArray 3 [firstOfHash1; secondOfHash1])
                    (hashConfig false)
  = Returns tt [Add "/0" firstOfHash1; Add "/1" firstOfHash1].
Proof. split; vm_compute; reflexivity. Qed.

(** ** The equality gate against the full reconciliation *)

Lemma compareArrays_gate config cmp leftArr rightArr path :
  compareArrays config cmp leftArr rightArr path
  = if sameElements leftArr rightArr then ret tt
    else compareArraysWithoutGate config cmp leftArr rightArr path.
Proof. reflexivity. Qed.

Lemma sameElements_nth_error l r i :
  sameElements l r = true ->
  match nth_error l i, nth_error r i with
  | Some x, Some y => sameJSON x y = true
  | None, None => True
  | _, _ => False
  end.
Proof.
  revert r i. induction l as [|x l IH]; intros [|y r] i; simpl; try discriminate.
  - now destruct i.
  - rewrite andb_true_iff. intros [Hxy Hlr].
    destruct i as [|i]; simpl; [assumption | now apply IH].
Qed.

Lemma sameElements_length l r : sameElements l r = true -> List.length l = List.length r.
Proof.
  revert r. induction l as [|x l IH]; intros [|y r]; simpl; try discriminate; auto.
  rewrite andb_true_iff. intros [_ H]. f_equal. auto.
Qed.

Lemma toBeAdded_none (th l : list string) :
  (forall h, In h l -> In h th) ->
  filter (fun hash => negb (includes th hash)) l = [].
Proof.
  induction l as [|h l IH]; intros H; simpl; [reflexivity|].
  assert (includes th h = true) as -> by (apply includes_In, H; now left).
  simpl. apply IH. intros h' Hh'. apply H. now right.
Qed.

Section EqualArrays.
Variable config : JsonPatchConfig.
Variable cmp : string -> JsonValue -> JsonValue -> M unit.
Variables leftArr rightArr : list JsonValue.
Variable path : string.
Hypothesis same : sameElements leftArr rightArr = true.
Hypothesis cmp_equal :
  forall i x y p,
    nth_error leftArr i = Some x -> nth_error rightArr i = Some y ->
    cmp (indexPath path i) x y p = Returns tt p.

Lemma indexLoop_equal steps :
  forall i p,
    indexLoop cmp leftArr rightArr path steps i (Z.of_nat i) p = Returns tt p.
Proof.
  induction steps as [|steps IH]; intros i p; cbn [indexLoop]; [reflexivity|].
  pose proof (sameElements_nth_error leftArr rightArr i same) as H.
  replace (Z.of_nat i + 1) with (Z.of_nat (S i)) by lia.
  destruct (nth_error leftArr i) as [x|] eqn:El, (nth_error rightArr i) as [y|] eqn:Er;
    try contradiction; [|apply IH].
  unfold bind. fold (indexPath path i). rewrite (cmp_equal i x y) by assumption.
  apply IH.
Qed.

Variable hashes : list string.
Hypothesis hashes_length : List.length hashes = List.length leftArr.
Hypothesis hashes_distinct : NoDup hashes.

Lemma matchLoop_equal l2 :
  forall h2 l1 h1 p,
    leftArr = l1 ++ l2 -> hashes = h1 ++ h2 ->
    List.length l1 = List.length h1 -> List.length l2 = List.length h2 ->
    matchLoop cmp rightArr hashes path (combine l2 h2) (Z.of_nat (List.length l1)) h1 p
    = Returns (Z.of_nat (List.length leftArr), hashes) p.
Proof.
  induction l2 as [|x l2 IH]; intros [|h h2] l1 h1 p El Eh Hlen1 Hlen2;
    simpl in Hlen2; try discriminate.
  - simpl. unfold ret. rewrite El, Eh, !app_nil_r. reflexivity.
  - assert (Hin : In h hashes) by (rewrite Eh; apply in_app_iff; right; now left).
    cbn [combine]. rewrite matchLoop_matched by assumption. unfold bind.
    assert (Hpos : position hashes h = List.length l1).
    { rewrite Hlen1.
      replace h with (nth (List.length h1) hashes "") at 1
        by (rewrite Eh, app_nth2, Nat.sub_diag; [reflexivity | lia]).
      apply position_nth_NoDup; [assumption|].
      rewrite Eh, length_app. simpl. lia. }
    unfold firstWithHash. rewrite Hpos.
    pose proof (sameElements_nth_error leftArr rightArr (List.length l1) same) as Hxy.
    assert (Hx : nth_error leftArr (List.length l1) = Some x)
      by (rewrite El, nth_error_app2, Nat.sub_diag; [reflexivity | lia]).
    rewrite Hx in Hxy.
    destruct (nth_error rightArr (List.length l1)) as [y|] eqn:Er; [|contradiction].
    rewrite (nth_error_nth _ _ JNull Er).
    fold (indexPath path (List.length l1)).
    rewrite (cmp_equal _ x y) by assumption.
    specialize (IH h2 (l1 ++ [x]) (h1 ++ [h]) p).
    rewrite length_app in IH. simpl List.length in IH.
    replace (Z.of_nat (List.length l1 + 1)) with (Z.of_nat (List.length l1) + 1) in IH by lia.
    apply IH.
    + now rewrite <- app_assoc.
    + now rewrite <- app_assoc.
    + rewrite length_app. simpl. lia.
    + lia.
Qed.

Lemma moveLoop_in_place n :
  forall p, moveLoop hashes path n hashes p = Returns hashes p.
Proof.
  induction n as [|n IH]; intros p; simpl; [reflexivity|].
  rewrite Z.eqb_refl. apply IH.
Qed.

End EqualArrays.

(** Two equal arrays whose elements compare without an operation, each at
    its index, reconcile without one under either strategy. *)
Lemma compareArraysWithoutGate_equal config cmp leftArr rightArr path p :
  sameElements leftArr rightArr = true ->
  (forall i x y q,
      nth_error leftArr i = Some x -> nth_error rightArr i = Some y ->
      cmp (indexPath path i) x y q = Returns tt q) ->
  pairsByPosition config leftArr rightArr path ->
  compareArraysWithoutGate config cmp leftArr rightArr path p = Returns tt p.
Proof.
  intros Hsame Hcmp Hhash.
  unfold compareArraysWithoutGate, pairsByPosition in *.
  destruct (objectHash config) as [| |f] eqn:Hf; [|contradiction|].
  - unfold compareArrayByIndex. now apply (indexLoop_equal cmp leftArr rightArr path).
  - destruct Hhash as [Hlr Hnd].
    rewrite (compareArrayByHash_structuralPass _ _ f) by assumption.
    unfold structuralPass, bind. rewrite Hlr.
    set (hashes := map (fun value => f value {| side := right; path := path |}) rightArr) in *.
    assert (Hlen : List.length hashes = List.length leftArr).
    { rewrite <- Hlr. apply length_map. }
    pose proof (matchLoop_equal cmp leftArr rightArr path Hsame Hcmp
                  hashes Hlen Hnd leftArr hashes [] [] p eq_refl eq_refl eq_refl
                  (eq_sym Hlen)) as Hm.
    change (Z.of_nat (List.length (@nil JsonValue))) with 0 in Hm. rewrite Hm.
    cbn [fst snd]. rewrite toBeAdded_none by auto. cbn [addLoop]. unfold ret.
    destruct (array_ignoreMove config); [reflexivity|].
    cbn [snd]. now rewrite moveLoop_in_place.
Qed.

Lemma ordinary_elem ref l x : ordinary (JArray ref l) = true -> In x l -> ordinary x = true.
Proof.
  simpl. induction l as [|y l IH]; simpl; [tauto|].
  rewrite andb_true_iff. intros [Hy Hl] [->|H]; auto.
Qed.

Lemma flat_elem ref l x :
  flat (JArray ref l) = true -> In x l -> isArray (Some x) = false /\ flat x = true.
Proof.
  simpl. induction l as [|y l IH]; simpl; [tauto|].
  rewrite !andb_true_iff, negb_true_iff. intros [[Hy Hf] Hl] [->|H]; auto.
Qed.

Lemma flat_prop ref props k x : flat (JObject ref props) = true -> In (k, x) props -> flat x = true.
Proof.
  simpl. induction props as [|[k' y] props IH]; simpl; [tauto|].
  rewrite andb_true_iff. intros [Hy Hl] [[= -> ->]|H]; auto.
Qed.

Lemma pairsAtEveryArray_array config path a ls b rs :
  pairsAtEveryArray config path (JArray a ls) (JArray b rs) ->
  pairsByPosition config ls rs path /\
  forall i x y,
    nth_error ls i = Some x -> nth_error rs i = Some y ->
    pairsAtEveryArray config (indexPath path i) x y.
Proof.
  inversion 1 as [? ? ? ? ? Hp He| |? ? ? Hprim|? ? ? Hidx]; subst.
  - auto.
  - discriminate Hprim.
  - split; [unfold pairsByPosition; now rewrite Hidx|].
    intros. now apply pairs_index.
Qed.

Lemma pairsAtEveryArray_object config path a lp b rp :
  pairsAtEveryArray config path (JObject a lp) (JObject b rp) ->
  forall k u v,
    getProp k lp = Some u -> getProp k rp = Some v ->
    pairsAtEveryArray config (join path k) u v.
Proof.
  inversion 1 as [|? ? ? ? ? Hp|? ? ? Hprim|? ? ? Hidx]; subst.
  - assumption.
  - discriminate Hprim.
  - intros. now apply pairs_index.
Qed.

Section EqualObjectsWithoutGate.
Variable config : JsonPatchConfig.
Variable cmp : string -> JsonValue -> JsonValue -> M unit.
Variable path : string.
Variables lp rp : list (string * JsonValue).
Hypothesis same : sameProperties lp rp = true.
Hypothesis lp_intact : hasKey "hasOwnProperty" lp = false.
Hypothesis array_sub :
  forall k a us b vs,
    getProp k lp = Some (JArray a us) -> getProp k rp = Some (JArray b vs) ->
    forall p, compareArraysWithoutGate config cmp us vs (join path k) p = Returns tt p.
Hypothesis plain_sub :
  forall k u v, getProp k lp = Some u -> getProp k rp = Some v ->
    isJsonObject (Some v) = true -> forall p, cmp (join path k) u v p = Returns tt p.
Hypothesis other_sub :
  forall k u v, getProp k lp = Some u -> getProp k rp = Some v ->
    isPrimitiveValue v = false -> isArray (Some v) = false ->
    isJsonObject (Some v) = false -> strictEq u v = true.

Lemma comparePropertyWithoutGate_equal k p :
  hasKey k rp = true ->
  comparePropertyWithoutGate config cmp lp rp (join path k) k p = Returns tt p.
Proof.
  intros Hk. pose proof (sameProperties_getProp lp rp k same) as Hget.
  pose proof (sameProperties_hasKey lp rp k same) as Hkl. rewrite Hk in Hkl.
  apply hasKey_getProp in Hk. destruct Hk as [v Hv]. rewrite Hv in Hget.
  destruct (getProp k lp) as [u|] eqn:Hu; [|contradiction].
  unfold comparePropertyWithoutGate. rewrite Hu, Hv. cbn [defined].
  destruct (isArray (Some u) && isArray (Some v)) eqn:Harr.
  - destruct u, v; try discriminate. cbn [elements]. eauto.
  - destruct (isJsonObject (Some v)) eqn:Hobj.
    + assert (isJsonObject (Some u) = true) as ->.
      { destruct u, v; try discriminate.
        rewrite sameJSON_object in Hget. cbn [isJsonObject] in *.
        now rewrite (sameProperties_hasKey _ _ "constructor" Hget). }
      eauto.
    + unfold bind. rewrite (hasOwnProperty_left lp lp_intact), Hkl. cbn [negb strictNeq].
      assert (strictEq u v = true) as ->; [|reflexivity].
      destruct (isPrimitiveValue v) eqn:Hprim; [now apply sameJSON_primitive|].
      apply (other_sub k); auto.
      destruct u, v; try discriminate; reflexivity.
Qed.

Lemma rightKeyLoopWithoutGate_equal todo p :
  Forall (fun k => hasKey k rp = true) todo ->
  rightKeyLoopWithoutGate config cmp false path lp rp todo p = Returns tt p.
Proof.
  induction 1 as [|k todo Hk _ IH]; simpl; [reflexivity|].
  unfold bind at 1.
  destruct (filteredOut config k right path); [exact IH|].
  now rewrite comparePropertyWithoutGate_equal.
Qed.
End EqualObjectsWithoutGate.

Lemma plainAndFlat_elements n a ls :
  plainAndFlat (S n) (JArray a ls) ->
  Forall (fun x => isArray (Some x) = false /\ plainAndFlat n x) ls.
Proof.
  intros (Hf & Hi & Ho & Hd). apply Forall_forall. intros x Hx.
  destruct (flat_elem _ _ _ Hf Hx) as [Ha Hfx].
  pose proof (depth_elem a ls x Hx).
  repeat split; eauto using intact_elem, ordinary_elem. lia.
Qed.

(** The elements of two equal arrays compare without an operation when
    the values one level down do. *)
Lemma elements_equal_without_gate config (cmp : string -> JsonValue -> JsonValue -> M unit)
      fuel ls rs path :
  (forall path' x y q,
      plainAndFlat fuel x -> sameJSON x y = true ->
      isArray (Some x) = false \/ path' = "" ->
      pairsAtEveryArray config path' x y ->
      cmp path' x y q = Returns tt q) ->
  sameElements ls rs = true ->
  Forall (fun x => isArray (Some x) = false /\ plainAndFlat fuel x) ls ->
  (forall i x y,
      nth_error ls i = Some x -> nth_error rs i = Some y ->
      pairsAtEveryArray config (indexPath path i) x y) ->
  forall i x y q,
    nth_error ls i = Some x -> nth_error rs i = Some y ->
    cmp (indexPath path i) x y q = Returns tt q.
Proof.
  intros IH Hsame Hall Hpairs i x y q Hx Hy.
  rewrite Forall_forall in Hall.
  destruct (Hall x (nth_error_In _ _ Hx)) as [Harr Hfit].
  pose proof (sameElements_nth_error ls rs i Hsame) as Hxy. rewrite Hx, Hy in Hxy.
  apply IH; eauto.
Qed.

(** Two equal values compare without an operation when no array
    comparison has the gate, if no array holds an array, the objects are
    plain and leave [hasOwnProperty] alone, and the hashes pair the
    elements of every array by position; an array is compared at the root
    only. *)
Lemma compareObjectsWithoutGate_equal config fuel :
  forall path x y p,
    plainAndFlat fuel x -> sameJSON x y = true ->
    isArray (Some x) = false \/ path = "" ->
    pairsAtEveryArray config path x y ->
    compareObjectsWithoutGate config fuel path x y p = Returns tt p.
Proof.
  induction fuel as [|fuel IH]; intros path x y p Hfit Hsame Hpath Hpairs;
    [destruct Hfit as (_ & _ & _ & Hd); lia|].
  destruct x as [| | | |refl ls|refl lp], y as [| | | |refr rs|refr rp];
    try discriminate Hsame;
    try (cbn [compareObjectsWithoutGate isPrimitiveValue orb];
         rewrite (sameJSON_primitive _ _ Hsame eq_refl); reflexivity).
  - (* two arrays, at the root *)
    destruct Hpath as [Hpath| ->]; [discriminate Hpath|].
    cbn [compareObjectsWithoutGate isPrimitiveValue orb isArray andb elements String.eqb].
    rewrite sameJSON_array in Hsame.
    destruct (pairsAtEveryArray_array _ _ _ _ _ _ Hpairs) as [Hhere Hbelow].
    apply compareArraysWithoutGate_equal; [assumption| |assumption].
    apply (elements_equal_without_gate config _ fuel ls rs ""); auto.
    now apply plainAndFlat_elements with (a := refl).
  - (* two objects *)
    cbn [compareObjectsWithoutGate isPrimitiveValue orb isArray andb properties keys].
    rewrite andb_false_r. cbn [orb].
    rewrite sameJSON_object in Hsame.
    destruct Hfit as (Hflat & Hin & Hord & Hd).
    pose proof (intact_hasOwnProperty _ _ Hin) as Hown.
    pose proof (pairsAtEveryArray_object _ _ _ _ _ _ Hpairs) as Hbelow.
    assert (Hsub : forall k u v, getProp k lp = Some u -> getProp k rp = Some v ->
              plainAndFlat fuel u /\ sameJSON u v = true /\
              pairsAtEveryArray config (join path k) u v).
    { intros k u v Hu Hv.
      pose proof (sameProperties_getProp lp rp k Hsame) as Huv. rewrite Hu, Hv in Huv.
      pose proof (getProp_In _ _ _ Hu) as Hinu.
      pose proof (depth_prop refl lp k u Hinu).
      repeat split; eauto using intact_prop, ordinary_prop, flat_prop. lia. }
    unfold bind. rewrite (rightKeyLoopWithoutGate_equal config _ path lp rp);
      auto using keys_hasKey.
    + apply leftKeyLoop_equal; auto using keys_hasKey.
    + intros k a us b vs Hu Hv q.
      destruct (Hsub k _ _ Hu Hv) as (Hfit & Huv & Hp).
      rewrite sameJSON_array in Huv.
      destruct (pairsAtEveryArray_array _ _ _ _ _ _ Hp) as [Hhere Hunder].
      destruct fuel as [|fuel']; [destruct Hfit as (_ & _ & _ & Hd'); lia|].
      apply compareArraysWithoutGate_equal; [assumption| |assumption].
      apply (elements_equal_without_gate config _ fuel' us vs (join path k)); auto.
      * intros path' x y q' (Hfx & Hix & Hox & Hdx). apply IH.
        repeat split; auto.
      * now apply plainAndFlat_elements with (a := a).
    + intros k u v Hu Hv Hobj q.
      destruct (Hsub k _ _ Hu Hv) as (Hfit & Huv & Hp).
      apply IH; auto.
      left. destruct u, v; try discriminate; reflexivity.
    + intros k u v Hu Hv Hprim Harr Hobj. exfalso.
      destruct (Hsub k _ _ Hu Hv) as ((_ & _ & Hu' & _) & Huv & _).
      destruct u as [| | | | |ru up], v as [| | | | |rv vp]; try discriminate.
      rewrite sameJSON_object in Huv. cbn [isJsonObject] in Hobj.
      rewrite <- (sameProperties_hasKey _ _ "constructor" Huv) in Hobj.
      rewrite (ordinary_constructor _ _ Hu') in Hobj. discriminate.
Qed.

(** C8 as amended.  On two arrays with equal serialisations the
    reconciliation emits nothing when no array comparison has the gate,
    as it does with the gate, when: no element of the arrays is itself an
    array, nor is any element of an array found below them; no object of
    the left array has an own property named [hasOwnProperty] or
    [constructor]; and, under the hash strategy, [objectHash] is callable
    and gives the two sides of every array compared, here and below, the
    same pairwise distinct hashes.  [fuel] is what the traversal has left
    for the elements. *)
Theorem gate_agrees_with_full_reconciliation :
  forall config fuel leftArr rightArr path p,
    sameElements leftArr rightArr = true ->
    Forall (fun x => isArray (Some x) = false /\ flat x = true /\ intact x = true /\
                     ordinary x = true /\ (depth x < fuel)%nat) leftArr ->
    pairsByPosition config leftArr rightArr path ->
    (forall i x y,
        nth_error leftArr i = Some x -> nth_error rightArr i = Some y ->
        pairsAtEveryArray config (indexPath path i) x y) ->
    compareArraysWithoutGate config (compareObjectsWithoutGate config fuel)
                             leftArr rightArr path p
    = Returns tt p /\
    compareArrays config (compareObjects config fuel) leftArr rightArr path p
    = Returns tt p.
Proof.
  intros config fuel leftArr rightArr path p Hsame Hall Hhash Hbelow.
  split; [|now apply compareArrays_same].
  apply compareArraysWithoutGate_equal; [assumption| |assumption].
  apply (elements_equal_without_gate config _ fuel leftArr rightArr path); auto.
  intros. now apply compareObjectsWithoutGate_equal.
Qed.

(** The hashes of [v => v.id] pair two values made of objects with
    distinct ids, here the elements of [taggedIds] and of its copy. *)
Lemma taggedIds_pairs :
  forall i x y,
    nth_error taggedIds i = Some x -> nth_error taggedIdsCopy i = Some y ->
    pairsAtEveryArray (hashConfig false) (indexPath "" i) x y.
Proof.
  assert (Hone : forall path a b n,
            pairsAtEveryArray (hashConfig false) path (withId a n) (withId b n)).
  { intros path a b n. apply pairs_object. intros k u v. unfold withId. simpl.
    destruct (String.eqb k "id"); [|discriminate].
    intros [= <-] _. now apply pairs_primitive. }
  intros [|[|i]] x y; simpl.
  - intros [= <-] [= <-]. apply pairs_object. intros k u v. simpl.
    destruct (String.eqb k "id"); [intros [= <-] _; now apply pairs_primitive|].
    destruct (String.eqb k "tags"); [|discriminate].
    intros [= <-] [= <-]. apply pairs_array.
    + split; [reflexivity|].
      repeat constructor; simpl; intuition discriminate.
    + intros [|[|j]] x y; simpl; try (destruct j; discriminate);
        intros [= <-] [= <-]; apply Hone.
  - intros [= <-] [= <-]. apply Hone.
  - destruct i; discriminate.
Defined.

(** C8 at two arrays of objects paired by their [id], one of which holds
    an array of such objects. *)
Lemma gate_agrees_with_full_reconciliation_witness :
  compareArraysWithoutGate (hashConfig false) (compareObjectsWithoutGate (hashConfig false) 4)
                           taggedIds taggedIdsCopy "" []
  = Returns tt [] /\
  compareArrays (hashConfig false) (compareObjects (hashConfig false) 4)
                taggedIds taggedIdsCopy "" []
  = Returns tt [].
Proof.
  apply (gate_agrees_with_full_reconciliation (hashConfig false) 4
           taggedIds taggedIdsCopy "" []).
  - reflexivity.
  - repeat constructor; simpl; lia.
  - split; [reflexivity|].
    repeat constructor; simpl; intuition discriminate.
  - exact taggedIds_pairs.
Defined.

(** C8 as stated fails: [[[1]]] against itself passes the gate, and the
    index strategy run on the same pair replaces the nested array, because
    [compareObjects] below the root replaces whenever a side is an
    array. *)
Lemma nested_array_is_replaced_without_gate :
  sameElements nestedOnes nestedOnes = true /\
  compareArrays emptyConfig (compareObjects emptyConfig 3) nestedOnes nestedOnes "" []
  = Returns tt [] /\
  compareArraysWithoutGate emptyConfig (compareObjectsWithoutGate emptyConfig 3)
                           nestedOnes nestedOnes "" []
  = Returns tt [Replace "/0" (JArray 13 [JNumber 1])].
Proof. repeat split; vm_compute; reflexivity. Qed.

(** An array inside an array is replaced at any depth once no array
    comparison has the gate: [[{a: [[1]]}]] against itself replaces
    [/0/a/0]. *)
Lemma array_below_a_key_is_replaced_without_gate :
  compareArrays emptyConfig (compareObjects emptyConfig 5)
                nestedBelowKey nestedBelowKey "" []
  = Returns tt [] /\
  compareArraysWithoutGate emptyConfig (compareObjectsWithoutGate emptyConfig 5)
                           nestedBelowKey nestedBelowKey "" []
  = Returns tt [Replace "/0/a/0" (JArray 16 [JNumber 1])].
Proof. split; vm_compute; reflexivity. Qed.

(** ** Property filter *)

Lemma rightKeyLoop_accepted config cmp top path lp rp todo p :
  rightKeyLoop config cmp top path lp rp todo p
  = rightKeyLoop config cmp top path lp rp (filter (accepted config right path) todo) p.
Proof.
  revert p. induction todo as [|k todo IH]; intros p; [reflexivity|].
  cbn [rightKeyLoop filter]. unfold accepted at 1.
  destruct (filteredOut config k right path) eqn:E; cbn [negb].
  - unfold bind, ret. apply IH.
  - cbn [rightKeyLoop]. rewrite E. unfold bind.
    destruct (compareProperty _ _ _ _ _ _ p); auto.
Qed.

Lemma hasOwnProperty_returns props key p own q :
  hasOwnProperty props key p = Returns own q ->
  q = p /\ own = hasKey key props /\ hasKey "hasOwnProperty" props = false.
Proof.
  unfold hasOwnProperty. destruct (hasKey "hasOwnProperty" props); [discriminate|].
  intros [= <- <-]. auto.
Qed.

Lemma leftKeyLoop_accepted config top path lp rp todo p p' :
  leftKeyLoop config top path lp rp todo p = Returns tt p' ->
  leftKeyLoop config top path lp rp (filter (accepted config left path) todo) p
  = Returns tt p'.
Proof.
  revert p. induction todo as [|k todo IH]; intros p H; [exact H|].
  cbn [leftKeyLoop filter] in *. unfold accepted at 1. unfold bind in H.
  destruct (hasOwnProperty lp k p) as [own q| |] eqn:Hown; try discriminate H.
  destruct (hasOwnProperty_returns _ _ _ _ _ Hown) as (-> & _ & _).
  destruct (filteredOut config k left path) eqn:E; cbn [negb].
  - rewrite orb_true_r in H. apply IH. exact H.
  - cbn [leftKeyLoop]. unfold bind. rewrite Hown, E.
    destruct (negb own || false); [now apply IH|].
    destruct (hasOwnProperty rp k p) as [inRight q'| |]; try discriminate H.
    destruct (negb inRight).
    + destruct (push _ q') as [[] q''| |]; try discriminate H. now apply IH.
    + now apply IH.
Qed.

(** ** Where operations are emitted *)

Lemma string_append_assoc (a b c : string) : ((a ++ b) ++ c = a ++ (b ++ c))%string.
Proof. induction a as [|ch a IH]; simpl; [reflexivity | now rewrite IH]. Qed.

Lemma string_append_inj (a b c : string) : (a ++ b = a ++ c)%string -> b = c.
Proof. induction a as [|ch a IH]; simpl; [auto | intros [= H]; auto]. Qed.

Lemma string_append_length (a b : string) :
  String.length (a ++ b)%string = (String.length a + String.length b)%nat.
Proof. induction a as [|ch a IH]; simpl; [reflexivity | now rewrite IH]. Qed.

Lemma join_inj path k k' : join path k = join path k' -> k = k'.
Proof. unfold join. intros H. now do 2 apply string_append_inj in H. Qed.

Lemma below_join path seg : below path (join path seg).
Proof. now exists seg. Qed.

Lemma below_join_trans path seg s : below (join path seg) s -> below path s.
Proof.
  intros [rest ->]. exists (seg ++ "/" ++ rest)%string.
  unfold join. now rewrite !string_append_assoc.
Qed.

Lemma not_below_self s : ~ below s s.
Proof.
  intros [rest H]. apply (f_equal String.length) in H.
  rewrite !string_append_length in H. simpl in H. lia.
Qed.

(** A key of one segment is addressed by its own visit only. *)
Lemma below_join_oneSegment path k k' :
  oneSegment k -> ~ below (join path k') (join path k).
Proof.
  intros Hk [rest H]. unfold join in H. rewrite !string_append_assoc in H.
  do 2 apply string_append_inj in H. exact (Hk _ _ H).
Qed.

Lemma atOrBelow_join path seg op : atOrBelowOp (join path seg) op -> belowOp path op.
Proof.
  unfold atOrBelowOp, belowOp. intros [[-> Hnone]|[H Hfrom]].
  - split; [apply below_join|]. intros from E. congruence.
  - split; eauto using below_join_trans.
Qed.

Lemma emits_ret {A} P (a : A) : emits P (ret a).
Proof. intros p b p' [= <- <-]. exists []. now rewrite app_nil_r. Qed.

Lemma emits_throw {A} P e : emits P (@throw A e).
Proof. intros p b p' H. discriminate H. Qed.

Lemma emits_outOfFuel {A} P : emits P (@outOfFuel A).
Proof. intros p b p' H. discriminate H. Qed.

Lemma emits_push (P : Operation -> Prop) op : P op -> emits P (push op).
Proof. intros H p b p' [= <-]. exists [op]. auto. Qed.

Lemma emits_bind {A B} P (m : M A) (k : A -> M B) :
  emits P m -> (forall a, emits P (k a)) -> emits P (bind m k).
Proof.
  intros Hm Hk p b p' H. unfold bind in H.
  destruct (m p) as [a q| |] eqn:E; try discriminate H.
  destruct (Hm _ _ _ E) as (ops1 & -> & H1).
  destruct (Hk _ _ _ _ H) as (ops2 & -> & H2).
  exists (ops1 ++ ops2). rewrite app_assoc. split; [reflexivity|].
  apply Forall_app. auto.
Qed.

Lemma emits_if {A} P (b : bool) (m1 m2 : M A) :
  emits P m1 -> emits P m2 -> emits P (if b then m1 else m2).
Proof. destruct b; auto. Qed.

Lemma emits_weaken {A} (P Q : Operation -> Prop) (m : M A) :
  (forall op, P op -> Q op) -> emits P m -> emits Q m.
Proof.
  intros HPQ Hm p a p' H. destruct (Hm _ _ _ H) as (ops & -> & Hops).
  exists ops. split; [reflexivity|]. eapply Forall_impl; eauto.
Qed.

Lemma emits_hasOwnProperty P props key : emits P (hasOwnProperty props key).
Proof.
  unfold hasOwnProperty. apply emits_if; [apply emits_throw | apply emits_ret].
Qed.

Create HintDb emits.
#[local] Hint Resolve emits_ret emits_throw emits_outOfFuel emits_hasOwnProperty : emits.

Ltac emits_step :=
  repeat first
    [ solve [ auto with emits ]
    | apply emits_bind; [| intros ]
    | apply emits_if ].

Section EmitsArrays.
Variable config : JsonPatchConfig.
Variable cmp : string -> JsonValue -> JsonValue -> M unit.
Hypothesis cmp_at : forall path l r, emits (atOrBelowOp path) (cmp path l r).

Lemma emits_element path index l r :
  emits (belowOp path) (cmp (join path index) l r).
Proof. eapply emits_weaken; [|apply cmp_at]. apply atOrBelow_join. Qed.

Lemma emits_push_element path index (mk : string -> Operation) :
  opPath (mk (join path index)) = join path index ->
  opFrom (mk (join path index)) = None ->
  emits (belowOp path) (push (mk (join path index))).
Proof.
  intros H Hnone. apply emits_push. unfold belowOp. rewrite H, Hnone.
  split; [apply below_join | discriminate].
Qed.

Lemma emits_push_move path from index :
  emits (belowOp path) (push (Move (join path from) (join path index))).
Proof.
  apply emits_push. split; [apply below_join|].
  intros f [= <-]. apply below_join.
Qed.

#[local] Hint Resolve emits_element : emits.
#[local] Hint Extern 1 (emits (belowOp ?path) (push (Add (join ?path ?i) ?v))) =>
  exact (emits_push_element path i (fun s => Add s v) eq_refl eq_refl) : emits.
#[local] Hint Extern 1 (emits (belowOp ?path) (push (Remove (join ?path ?i)))) =>
  exact (emits_push_element path i Remove eq_refl eq_refl) : emits.
#[local] Hint Resolve emits_push_move : emits.

Lemma emits_indexLoop leftArr rightArr path steps :
  forall i currentIndex,
    emits (belowOp path) (indexLoop cmp leftArr rightArr path steps i currentIndex).
Proof.
  induction steps as [|steps IH]; intros i ci; simpl; [apply emits_ret|].
  destruct (nth_error leftArr i), (nth_error rightArr i); emits_step.
Qed.

Lemma emits_matchLoop rightArr rightHashes path todo :
  forall currentIndex targetHashes,
    emits (belowOp path)
          (matchLoop cmp rightArr rightHashes path todo currentIndex targetHashes).
Proof.
  induction todo as [|[x h] todo IH]; intros ci th; simpl; [apply emits_ret|].
  emits_step.
Qed.

Lemma emits_addLoop rightArr rightHashes path toBeAdded :
  forall currentIndex targetHashes,
    emits (belowOp path)
          (addLoop rightArr rightHashes path toBeAdded currentIndex targetHashes).
Proof.
  induction toBeAdded as [|h rest IH]; intros ci th; simpl; [apply emits_ret|].
  emits_step.
Qed.

Lemma emits_moveLoop rightHashes path n :
  forall targetHashes, emits (belowOp path) (moveLoop rightHashes path n targetHashes).
Proof.
  induction n as [|n IH]; intros th; simpl; [apply emits_ret|].
  emits_step.
Qed.

(** Every operation of an array reconciliation at [path] lies below
    [path]. *)
Lemma emits_compareArrays leftArr rightArr path :
  emits (belowOp path) (compareArrays config cmp leftArr rightArr path).
Proof.
  unfold compareArrays. apply emits_if; [apply emits_ret|].
  unfold compareArrayByHash, compareArrayByIndex.
  destruct (objectHash config); try apply emits_throw.
  - apply emits_indexLoop.
  - emits_step; auto using emits_matchLoop, emits_addLoop, emits_moveLoop.
Qed.
End EmitsArrays.

Lemma newPath_join (top : bool) path key :
  (if top && String.eqb path "" then ("/" ++ key)%string else join path key)
  = join path key.
Proof.
  destruct top; [|reflexivity]. simpl.
  destruct (String.eqb_spec path "") as [->|]; reflexivity.
Qed.

Section EmitsObjects.
Variable config : JsonPatchConfig.
Variable cmp : string -> JsonValue -> JsonValue -> M unit.
Hypothesis cmp_at : forall path l r, emits (atOrBelowOp path) (cmp path l r).
Hypothesis cmp_below :
  forall path l r,
    isJsonObject (Some l) = true -> isJsonObject (Some r) = true ->
    emits (belowOp path) (cmp path l r).

Lemma emits_compareToObjectPrototype path props todo :
  emits (belowOp path) (compareToObjectPrototype config path props todo).
Proof.
  assert (Hadd : forall k v, emits (belowOp path) (push (Add (join path k) v)))
    by (intros k v; exact (emits_push_element path k (fun s => Add s v) eq_refl eq_refl)).
  assert (Hrep : forall k v, emits (belowOp path) (push (Replace (join path k) v)))
    by (intros k v; exact (emits_push_element path k (fun s => Replace s v) eq_refl eq_refl)).
  induction todo as [|k todo IH]; [apply emits_ret|].
  cbn [compareToObjectPrototype]. cbv zeta. emits_step.
Qed.

Lemma emits_compareProperty lp rp newPath key :
  emits (visitOp newPath) (compareProperty config cmp lp rp newPath key).
Proof.
  unfold compareProperty. cbv zeta.
  assert (Hadd : forall v, emits (visitOp newPath) (push (Add newPath v)))
    by (intros v; apply emits_push; left; auto).
  assert (Hrep : forall v, emits (visitOp newPath) (push (Replace newPath v)))
    by (intros v; apply emits_push; left; auto).
  destruct (isArray (getProp key lp) && isArray (Some (defined (getProp key rp)))).
  - eapply emits_weaken; [|apply emits_compareArrays; exact cmp_at]. now right.
  - destruct (isJsonObject (Some (defined (getProp key rp)))) eqn:Hr.
    + destruct (isJsonObject (getProp key lp)) eqn:Hl.
      * eapply emits_weaken; [|apply cmp_below; [|exact Hr]].
        -- now right.
        -- destruct (getProp key lp); [exact Hl | discriminate Hl].
      * apply emits_if; [|emits_step].
        eapply emits_weaken; [|apply emits_compareToObjectPrototype]. now right.
    + emits_step.
Qed.

Lemma emits_rightKeyLoop top path lp rp todo :
  emits (rightPassOp config path todo) (rightKeyLoop config cmp top path lp rp todo).
Proof.
  induction todo as [|k todo IH]; [apply emits_ret|].
  cbn [rightKeyLoop leftKeyLoop].
  apply emits_bind; [|intros _].
  - destruct (filteredOut config k right path) eqn:E; [apply emits_ret|].
    rewrite newPath_join.
    eapply emits_weaken; [|apply emits_compareProperty].
    intros op Hop. exists k. unfold accepted. rewrite E. split; [now left | auto].
  - eapply emits_weaken; [|exact IH].
    intros op (k' & Hin & Hacc & Hop). exists k'. split; [now right | auto].
Qed.

Lemma emits_leftKeyLoop top path lp rp todo :
  emits (leftPassOp config path todo) (leftKeyLoop config top path lp rp todo).
Proof.
  induction todo as [|k todo IH]; [apply emits_ret|].
  cbn [rightKeyLoop leftKeyLoop].
  apply emits_bind; [|intros _].
  - apply emits_bind; [apply emits_hasOwnProperty | intros own].
    destruct (filteredOut config k left path) eqn:E;
      [rewrite orb_true_r; apply emits_ret|].
    apply emits_if; [apply emits_ret|].
    apply emits_bind; [apply emits_hasOwnProperty | intros inRight].
    apply emits_if; [|apply emits_ret].
    rewrite newPath_join. apply emits_push.
    exists k. unfold accepted. rewrite E. split; [now left | auto].
  - eapply emits_weaken; [|exact IH].
    intros op (k' & Hin & Hacc & Hop). exists k'. split; [now right | auto].
Qed.
End EmitsObjects.

Lemma rightPassOp_below config path todo op : rightPassOp config path todo op -> belowOp path op.
Proof.
  intros (k & _ & _ & [[H Hkind]|[H Hfrom]]); unfold belowOp in *.
  - rewrite H. split; [apply below_join|].
    destruct op; simpl in *; discriminate.
  - split; eauto using below_join_trans.
Qed.

Lemma leftPassOp_below config path todo op : leftPassOp config path todo op -> belowOp path op.
Proof.
  intros (k & _ & _ & ->). split; [apply below_join | discriminate].
Qed.

(** Every operation of a comparison at [path] is at [path] or below it,
    and below it when two plain objects are compared. *)
Lemma emits_compareObjects config fuel :
  forall path l r,
    emits (atOrBelowOp path) (compareObjects config fuel path l r) /\
    (isJsonObject (Some l) = true -> isJsonObject (Some r) = true ->
     emits (belowOp path) (compareObjects config fuel path l r)).
Proof.
  induction fuel as [|fuel IH]; intros path l r;
    [split; intros; apply emits_outOfFuel|].
  assert (Hobj : forall lp rp top,
             emits (belowOp path)
                   (rightKeyLoop config (compareObjects config fuel) top path lp rp
                                 (map fst rp) ;;;
                    leftKeyLoop config top path lp rp (map fst lp))).
  { intros lp rp top. apply emits_bind; [|intros _].
    - eapply emits_weaken; [apply rightPassOp_below|].
      apply emits_rightKeyLoop; intros; now apply IH.
    - eapply emits_weaken; [apply leftPassOp_below|]. apply emits_leftKeyLoop. }
  assert (Hrep : emits (atOrBelowOp path) (push (Replace path r)))
    by (apply emits_push; now left).
  assert (Hweak : forall (m : M unit), emits (belowOp path) m -> emits (atOrBelowOp path) m)
    by (intros m; apply emits_weaken; intros op; now right).
  destruct l as [| | | |refl ls|refl lp], r as [| | | |refr rs|refr rp];
    (split; [|try (intros Hl Hr; discriminate)]);
    cbn [compareObjects isPrimitiveValue orb isArray andb properties keys elements];
    rewrite ?andb_false_r, ?andb_true_r; cbn [orb];
    try (apply emits_if; [exact Hrep | apply emits_ret]);
    try exact Hrep.
  - destruct (String.eqb_spec path "") as [->|_]; [|exact Hrep].
    apply Hweak, emits_compareArrays. intros; now apply IH.
  - apply Hweak, Hobj.
  - intros _ _. apply Hobj.
Qed.

(** A left key the left filter accepts, absent from the right object, is
    removed. *)
Lemma leftKeyLoop_removes config top path lp rp todo k :
  forall p p',
    leftKeyLoop config top path lp rp todo p = Returns tt p' ->
    In k todo -> accepted config left path k = true ->
    hasKey k lp = true -> hasKey k rp = false ->
    In (Remove (join path k)) p'.
Proof.
  induction todo as [|k0 todo IH]; intros p p' H Hin Hacc Hl Hr; [destruct Hin|].
  cbn [leftKeyLoop] in H. unfold bind at 1 in H.
  match type of H with
  | match ?body p with _ => _ end = _ => destruct (body p) as [[] q| |] eqn:Hbody
  end; try discriminate H.
  destruct (string_dec k0 k) as [->|Hne].
  - destruct (emits_leftKeyLoop config top path lp rp todo _ _ _ H) as (ops & -> & _).
    apply in_app_iff. left.
    unfold bind in Hbody.
    destruct (hasOwnProperty lp k p) as [own q0| |] eqn:Hown; try discriminate Hbody.
    destruct (hasOwnProperty_returns _ _ _ _ _ Hown) as (-> & -> & _).
    unfold accepted in Hacc. apply negb_true_iff in Hacc.
    rewrite Hl, Hacc in Hbody. cbn [negb orb] in Hbody.
    destruct (hasOwnProperty rp k p) as [inRight q0| |] eqn:Hown'; try discriminate Hbody.
    destruct (hasOwnProperty_returns _ _ _ _ _ Hown') as (-> & -> & _).
    rewrite Hr, newPath_join in Hbody. cbn [negb] in Hbody.
    unfold push in Hbody. injection Hbody as <-.
    apply in_app_iff. right. now left.
  - destruct Hin as [E|Hin]; [contradiction|]. eauto.
Qed.

(** A right key the right filter accepts, absent from the left object, is
    added with its right value. *)
Lemma compareProperty_adds config cmp lp rp newPath k v p p' :
  compareProperty config cmp lp rp newPath k p = Returns tt p' ->
  k <> "__proto__" ->
  getProp k rp = Some v -> hasKey k lp = false ->
  p' = p ++ [Add newPath v].
Proof.
  intros H Hk Hv Hl. unfold compareProperty in H.
  rewrite Hv, (hasKey_false_getProp _ _ Hl) in H. cbn [defined isArray andb] in H.
  change (isJsonObject None) with false in H. cbv iota in H.
  assert (readsObjectPrototype lp k = false) as Hread.
  { unfold readsObjectPrototype. now destruct (String.eqb_spec k "__proto__"). }
  rewrite Hread in H.
  assert (Hown : forall k' : bool -> M unit,
             bind (hasOwnProperty lp k) k' p = Returns tt p' -> k' false p = Returns tt p').
  { intros k' Hb. unfold bind in Hb.
    destruct (hasOwnProperty lp k p) as [own q| |] eqn:Ho; try discriminate Hb.
    destruct (hasOwnProperty_returns _ _ _ _ _ Ho) as (-> & -> & _). now rewrite Hl in Hb. }
  destruct (isJsonObject (Some v)); apply Hown in H; cbn [negb] in H;
    unfold push in H; now injection H as <-.
Qed.

Lemma rightKeyLoop_adds config fuel top path lp rp todo k v :
  forall p p',
    rightKeyLoop config (compareObjects config fuel) top path lp rp todo p = Returns tt p' ->
    In k todo -> accepted config right path k = true ->
    k <> "__proto__" ->
    getProp k rp = Some v -> hasKey k lp = false ->
    In (Add (join path k) v) p'.
Proof.
  induction todo as [|k0 todo IH]; intros p p' H Hin Hacc Hk Hv Hl; [destruct Hin|].
  cbn [rightKeyLoop] in H. unfold bind at 1 in H.
  match type of H with
  | match ?body p with _ => _ end = _ => destruct (body p) as [[] q| |] eqn:Hbody
  end; try discriminate H.
  destruct (string_dec k0 k) as [->|Hne].
  - destruct (emits_rightKeyLoop config (compareObjects config fuel)
                (fun path l r => proj1 (emits_compareObjects config fuel path l r))
                (fun path l r => proj2 (emits_compareObjects config fuel path l r))
                top path lp rp todo _ _ _ H) as (ops & -> & _).
    apply in_app_iff. left.
    unfold accepted in Hacc. apply negb_true_iff in Hacc.
    rewrite Hacc, newPath_join in Hbody.
    rewrite (compareProperty_adds _ _ _ _ _ _ _ _ _ Hbody Hk Hv Hl).
    apply in_app_iff. right. now left.
  - destruct Hin as [E|Hin]; [contradiction|]. eauto.
Qed.

Lemma rightPassOp_oneSegment config path todo k op :
  oneSegment k -> rightPassOp config path todo op -> opPath op = join path k ->
  accepted config right path k = true /\ (isAdd op || isReplace op) = true.
Proof.
  intros Hk (k' & _ & Hacc & [[Hp Hkind]|Hb]) Hop.
  - rewrite Hop in Hp. apply join_inj in Hp. subst k'. auto.
  - destruct Hb as [Hb _]. rewrite Hop in Hb.
    now destruct (below_join_oneSegment path k k' Hk).
Qed.

Lemma accepted_propertyFilter config s path k :
  accepted config s path k
  = match propertyFilter config with
    | Some propertyFilter => propertyFilter k {| side := s; path := path |}
    | None => true
    end.
Proof.
  unfold accepted, filteredOut. destruct (propertyFilter config); [|reflexivity].
  apply negb_involutive.
Qed.

(** The comparison of two objects in terms of [accepted]: it is the
    comparison restricted on each side to the accepted keys, and the
    operations at the path of a key of one segment come from the visit of
    that key. *)
Lemma compareObjects_by_accepted_keys :
  forall config fuel path refl lp refr rp p p',
    compareObjects config (S fuel) path (JObject refl lp) (JObject refr rp) p
    = Returns tt p' ->
    exists ops,
      p' = p ++ ops /\
      (rightKeyLoop config (compareObjects config fuel) false path lp rp
                    (filter (accepted config right path) (map fst rp)) ;;;
       leftKeyLoop config false path lp rp
                   (filter (accepted config left path) (map fst lp))) p
      = Returns tt p' /\
      (forall k op,
          oneSegment k -> accepted config right path k = false ->
          In op ops -> opPath op = join path k ->
          isAdd op = false /\ isReplace op = false) /\
      (forall k op,
          oneSegment k -> accepted config left path k = false ->
          In op ops -> opPath op = join path k ->
          isRemove op = false) /\
      (forall k,
          In k (map fst lp) -> hasKey k rp = false ->
          accepted config left path k = true ->
          In (Remove (join path k)) ops) /\
      (forall k v,
          k <> "__proto__" ->
          getProp k rp = Some v -> hasKey k lp = false ->
          accepted config right path k = true ->
          In (Add (join path k) v) ops).
Proof.
  intros config fuel path refl lp refr rp p p' H.
  cbn [compareObjects isPrimitiveValue orb isArray andb properties keys] in H.
  rewrite andb_false_r in H. cbn [orb] in H.
  unfold keys in H. cbn [properties] in H.
  set (cmp := compareObjects config fuel) in *.
  assert (Hat : forall path l r, emits (atOrBelowOp path) (cmp path l r))
    by (intros; apply emits_compareObjects).
  assert (Hbelow : forall path l r, isJsonObject (Some l) = true ->
                     isJsonObject (Some r) = true -> emits (belowOp path) (cmp path l r))
    by (intros; now apply emits_compareObjects).
  assert (Happ : appends (rightKeyLoop config cmp false path lp rp (map fst rp) ;;;
                          leftKeyLoop config false path lp rp (map fst lp))).
  { apply appends_bind; [|intros _]; auto with appends.
    apply appends_rightKeyLoop. intros. apply appends_compareObjects. }
  destruct (appends_returns _ _ _ _ Happ H) as (ops & Hnil & ->).
  exists ops. split; [reflexivity|].
  unfold bind in H, Hnil.
  destruct (rightKeyLoop config cmp false path lp rp (map fst rp) p) as [[] q| |] eqn:Hr;
    try discriminate H.
  destruct (rightKeyLoop config cmp false path lp rp (map fst rp) []) as [[] q1| |] eqn:Hr1;
    try discriminate Hnil.
  destruct (emits_rightKeyLoop config cmp Hat Hbelow _ _ _ _ _ _ _ _ Hr1) as (ops1 & E1 & H1).
  destruct (emits_leftKeyLoop config _ _ _ _ _ _ _ _ Hnil) as (ops2 & E2 & H2).
  simpl in E1. subst q1 ops.
  rewrite Forall_forall in H1, H2.
  split; [|split; [|split; [|split]]].
  - unfold bind. rewrite <- rightKeyLoop_accepted, Hr. now apply leftKeyLoop_accepted.
  - intros k op Hk Hrej Hin Hop. apply in_app_iff in Hin. destruct Hin as [Hin|Hin].
    + destruct (rightPassOp_oneSegment _ _ _ _ _ Hk (H1 _ Hin) Hop) as [Hacc _]. congruence.
    + destruct (H2 _ Hin) as (k' & _ & _ & ->). auto.
  - intros k op Hk Hrej Hin Hop. apply in_app_iff in Hin. destruct Hin as [Hin|Hin].
    + destruct (rightPassOp_oneSegment _ _ _ _ _ Hk (H1 _ Hin) Hop) as [_ Hkind].
      destruct op; simpl in *; try discriminate; reflexivity.
    + destruct (H2 _ Hin) as (k' & _ & Hacc & ->). simpl in Hop.
      apply join_inj in Hop. congruence.
  - intros k Hin Hrk Hacc.
    apply (leftKeyLoop_removes _ _ _ _ _ _ _ _ _ Hnil Hin Hacc); [|assumption].
    now apply hasKey_keys.
  - intros k v Hk Hv Hlk Hacc. apply in_app_iff. left.
    apply (rightKeyLoop_adds _ _ _ _ _ _ _ _ _ _ _ Hr1); auto.
    apply hasKey_keys, hasKey_getProp. eauto.
Qed.




(** * Further properties of the code *)

(** ** The path helper *)

Lemma split_not_nil s : PathInfo.split s <> [].
Proof.
  destruct s as [|c rest]; simpl; [discriminate|].
  destruct (Ascii.eqb c "/"); [discriminate|].
  destruct (PathInfo.split rest); discriminate.
Qed.

Lemma joinSegments_cons c segment others :
  PathInfo.joinSegments (String c segment :: others)
  = String c (PathInfo.joinSegments (segment :: others)).
Proof. destruct others; reflexivity. Qed.

Lemma split_slashFree_segments s : forallb PathInfo.slashFree (PathInfo.split s) = true.
Proof.
  induction s as [|c rest IH]; simpl; [reflexivity|].
  destruct (Ascii.eqb c "/") eqn:E; [exact IH|].
  destruct (PathInfo.split rest) as [|segment others]; simpl in *; rewrite E; auto.
Qed.

(** X1: [pathInfo] loses nothing: its segments joined by [/] are the path
    again; there is at least one segment, [length] counts them, [last] is
    the last of them, and no segment holds a [/]. *)
Theorem pathInfo_round_trip :
  forall path : string,
    let info := PathInfo.pathInfo path in
    PathInfo.joinSegments (PathInfo.segments info) = path /\
    PathInfo.length info = List.length (PathInfo.segments info) /\
    (1 <= PathInfo.length info)%nat /\
    PathInfo.last info = List.last (PathInfo.segments info) "" /\
    forallb PathInfo.slashFree (PathInfo.segments info) = true.
Proof.
  intros path. cbn [PathInfo.pathInfo PathInfo.segments PathInfo.length PathInfo.last].
  repeat split.
  - induction path as [|c rest IH]; [reflexivity|]. cbn [PathInfo.split].
    destruct (Ascii.eqb_spec c "/") as [->|_].
    + pose proof (split_not_nil rest) as Hne.
      destruct (PathInfo.split rest) as [|segment others] eqn:E; [contradiction|].
      change (PathInfo.joinSegments ("" :: segment :: others))
        with (String "/" (PathInfo.joinSegments (segment :: others))).
      now rewrite IH.
    + pose proof (split_not_nil rest) as Hne.
      destruct (PathInfo.split rest) as [|segment others] eqn:E; [contradiction|].
      now rewrite joinSegments_cons, IH.
  - pose proof (split_not_nil path).
    destruct (PathInfo.split path); [contradiction | simpl; lia].
  - pose proof (split_not_nil path) as Hne.
    generalize dependent (PathInfo.split path). intros l Hne.
    induction l as [|x l IH]; [contradiction|].
    destruct l as [|y l]; [reflexivity|].
    specialize (IH ltac:(discriminate)).
    cbn [List.length Nat.sub] in *. rewrite Nat.sub_0_r in *.
    change (nth (S (List.length l)) (x :: y :: l) "")
      with (nth (List.length l) (y :: l) "").
    rewrite IH. reflexivity.
  - apply split_slashFree_segments.
Qed.

Lemma split_slashFree key : PathInfo.slashFree key = true -> PathInfo.split key = [key].
Proof.
  induction key as [|c rest IH]; simpl; [reflexivity|].
  rewrite andb_true_iff, negb_true_iff. intros [Hc Hrest].
  now rewrite Hc, (IH Hrest).
Qed.

Lemma split_append_slash a b :
  PathInfo.split (a ++ String "/" b) = PathInfo.split a ++ PathInfo.split b.
Proof.
  induction a as [|c rest IH]; [reflexivity|].
  cbn [String.append PathInfo.split]. rewrite IH.
  destruct (Ascii.eqb c "/"); [reflexivity|].
  pose proof (split_not_nil rest).
  destruct (PathInfo.split rest); [contradiction | reflexivity].
Qed.

Lemma split_join path key :
  PathInfo.split (join path key) = PathInfo.split path ++ PathInfo.split key.
Proof. exact (split_append_slash path key). Qed.

(** X2: [pathInfo] undoes the way the algorithm builds paths.  The
    segments of [`${path}/${key}`] are those of [path] followed by those
    of [key]; when the key holds no [/] it is the last segment and the
    length grows by one. *)
Theorem pathInfo_of_joined_path :
  forall path key : string,
    PathInfo.segments (PathInfo.pathInfo (join path key))
    = PathInfo.segments (PathInfo.pathInfo path)
      ++ PathInfo.segments (PathInfo.pathInfo key) /\
    (PathInfo.slashFree key = true ->
     PathInfo.last (PathInfo.pathInfo (join path key)) = key /\
     PathInfo.length (PathInfo.pathInfo (join path key))
     = S (PathInfo.length (PathInfo.pathInfo path))).
Proof.
  intros path key.
  cbn [PathInfo.pathInfo PathInfo.segments PathInfo.length PathInfo.last].
  split; [apply split_join|].
  intros Hkey. rewrite split_join, (split_slashFree key Hkey), length_app.
  cbn [List.length]. split; [|lia].
  replace (List.length (PathInfo.split path) + 1 - 1)%nat
    with (List.length (PathInfo.split path)) by lia.
  now rewrite nth_middle.
Qed.

(** X2 at [/a] and [b]. *)
Lemma pathInfo_of_joined_path_witness :
  PathInfo.last (PathInfo.pathInfo (join "/a" "b")) = "b" /\
  PathInfo.length (PathInfo.pathInfo (join "/a" "b")) = 3%nat.
Proof. apply (proj2 (pathInfo_of_joined_path "/a" "b")). reflexivity. Defined.

(** ** [moveArrayElement] *)

Lemma spliceStart_le len start : (spliceStart (Z.of_nat len) start <= len)%nat.
Proof. unfold spliceStart. destruct (Z.ltb_spec start 0); lia. Qed.

Lemma removeAt_length {A} (i : nat) (l : list A) :
  (i < List.length l)%nat -> List.length (removeAt i l) = (List.length l - 1)%nat.
Proof.
  intros H. unfold removeAt. rewrite length_app, length_firstn, length_skipn. lia.
Qed.

Lemma insertAt_length {A} (i : nat) (x : A) (l : list A) :
  List.length (insertAt i x l) = S (List.length l).
Proof.
  unfold insertAt. rewrite length_app. cbn [List.length].
  rewrite <- (firstn_skipn i l) at 3. rewrite length_app. lia.
Qed.

Lemma insertAt_nth {A} (d : A) (i : nat) (x : A) (l : list A) :
  (i <= List.length l)%nat -> nth i (insertAt i x l) d = x.
Proof.
  intros H. unfold insertAt.
  rewrite app_nth2; rewrite length_firstn, Nat.min_l by lia; [|lia].
  now rewrite Nat.sub_diag.
Qed.

Lemma insert_remove_Permutation {A} (d : A) (c t : nat) (l : list A) :
  (c < List.length l)%nat -> Permutation l (insertAt t (nth c l d) (removeAt c l)).
Proof.
  intros Hc. unfold insertAt.
  rewrite (split_at d c l Hc) at 1. fold (removeAt c l).
  etransitivity; [symmetry; apply Permutation_middle|].
  etransitivity; [|apply Permutation_middle].
  apply perm_skip. unfold removeAt at 1. fold (removeAt c l).
  now rewrite firstn_skipn.
Qed.

(** X3: [moveArrayElement] with [from] inside the array keeps the
    elements and their number: the result is a permutation of the array,
    and the element that was at [from] is where [splice] puts it, at [to]
    counted from the end when negative and clamped to the array without
    that element. *)
Theorem moveArrayElement_moves_one_element :
  forall (A : Type) (undefined : A) (array : list A) (from to : Z),
    0 <= from < Z.of_nat (List.length array) ->
    let moved := moveArrayElement undefined array from to in
    Permutation array moved /\
    List.length moved = List.length array /\
    nth (spliceStart (Z.of_nat (List.length array - 1)) to) moved undefined
    = nth (Z.to_nat from) array undefined.
Proof.
  intros A undefined array from to Hfrom moved.
  assert (Hs : spliceStart (Z.of_nat (List.length array)) from = Z.to_nat from).
  { unfold spliceStart. destruct (Z.ltb_spec from 0); lia. }
  assert (Hc : (Z.to_nat from < List.length array)%nat) by lia.
  assert (E : moved = insertAt (spliceStart (Z.of_nat (List.length array - 1)) to)
                               (nth (Z.to_nat from) array undefined)
                               (removeAt (Z.to_nat from) array)).
  { unfold moved, moveArrayElement. rewrite Hs.
    fold (removeAt (Z.to_nat from) array). now rewrite removeAt_length. }
  rewrite E. repeat split.
  - now apply insert_remove_Permutation.
  - rewrite insertAt_length, removeAt_length by assumption. lia.
  - apply insertAt_nth. rewrite removeAt_length by assumption. apply spliceStart_le.
Qed.

(** X3 on [[a, b, c]]: the first element moved to index 2. *)
Lemma moveArrayElement_moves_one_element_witness :
  Permutation ["a"; "b"; "c"] (moveArrayElement "" ["a"; "b"; "c"] 0 2) /\
  List.length (moveArrayElement "" ["a"; "b"; "c"] 0 2) = 3%nat /\
  nth 2 (moveArrayElement "" ["a"; "b"; "c"] 0 2) "" = "a".
Proof.
  apply (moveArrayElement_moves_one_element string "" ["a"; "b"; "c"] 0 2).
  simpl. lia.
Defined.

(** X4: [moveArrayElement] with [from] at or beyond the end removes
    nothing and inserts [undefined]: the array grows by one. *)
Theorem moveArrayElement_from_beyond_end :
  forall (A : Type) (undefined : A) (array : list A) (from to : Z),
    Z.of_nat (List.length array) <= from ->
    let moved := moveArrayElement undefined array from to in
    moved = insertAt (spliceStart (Z.of_nat (List.length array)) to) undefined array /\
    List.length moved = S (List.length array).
Proof.
  intros A undefined array from to Hfrom moved.
  assert (Hs : spliceStart (Z.of_nat (List.length array)) from = List.length array).
  { unfold spliceStart. destruct (Z.ltb_spec from 0); lia. }
  assert (E : moved = insertAt (spliceStart (Z.of_nat (List.length array)) to)
                               undefined array).
  { unfold moved, moveArrayElement. rewrite Hs.
    rewrite nth_overflow by lia.
    rewrite firstn_all, skipn_all2, app_nil_r by lia. reflexivity. }
  split; [exact E|]. rewrite E. apply insertAt_length.
Qed.

(** X4 on [[a, b]] with [from = 5]. *)
Lemma moveArrayElement_from_beyond_end_witness :
  moveArrayElement "undefined" ["a"; "b"] 5 0
  = insertAt (spliceStart 2 0) "undefined" ["a"; "b"] /\
  List.length (moveArrayElement "undefined" ["a"; "b"] 5 0) = 3%nat.
Proof.
  apply (moveArrayElement_from_beyond_end string "undefined" ["a"; "b"] 5 0).
  simpl. lia.
Defined.

(** ** Equal inputs and exceptions of [generateJSONPatch] *)

(** X5 at [{a: [1], b: {c: true}}], compared with itself under a
    configuration whose [objectHash] is not callable. *)
Lemma generateJSONPatch_same_value_witness :
  generateJSONPatch
    (JObject 0 [("a", JArray 1 [JNumber 1]); ("b", JObject 2 [("c", JBool true)])])
    (JObject 0 [("a", JArray 1 [JNumber 1]); ("b", JObject 2 [("c", JBool true)])])
    {| objectHash := HashNotCallable; propertyFilter := None; array_ignoreMove := false |}
  = Returns tt [].
Proof. apply generateJSONPatch_same_value. reflexivity. Defined.

(** X6: two values with the same serialisation, built separately, give
    the empty patch under every configuration, provided no object of
    theirs has an own property named [hasOwnProperty] or [constructor]. *)
Theorem generateJSONPatch_equal_copies :
  forall (a b : JsonValue) (config : JsonPatchConfig),
    sameJSON a b = true -> intact a = true -> ordinary a = true ->
    generateJSONPatch a b config = Returns tt [].
Proof.
  intros a b config Hab Hint Hord. unfold generateJSONPatch.
  apply compareObjects_equal; auto.
Qed.

(** X6 at two copies of [{a: [1], b: {c: true}}]. *)
Lemma generateJSONPatch_equal_copies_witness :
  generateJSONPatch
    (JObject 0 [("a", JArray 1 [JNumber 1]); ("b", JObject 2 [("c", JBool true)])])
    (JObject 3 [("a", JArray 4 [JNumber 1]); ("b", JObject 5 [("c", JBool true)])])
    (hashConfig false)
  = Returns tt [].
Proof. apply generateJSONPatch_equal_copies; reflexivity. Defined.

(** X7: what a call can end with.  It returns a patch, or throws the
    error of [compareArrayByHash], which takes an [objectHash] that is
    truthy and not callable, or throws the [TypeError] of a shadowed
    [hasOwnProperty], which takes an input object with an own property of
    that name. *)
Theorem generateJSONPatch_outcomes :
  forall (before after : JsonValue) (config : JsonPatchConfig),
    match generateJSONPatch before after config with
    | Returns _ _ => True
    | Throws NoObjectHashFunction => objectHash config = HashNotCallable
    | Throws NotAFunction => intact before && intact after = false
    | OutOfFuel => False
    end.
Proof.
  intros before after config.
  destruct (intact before && intact after) eqn:E.
  - apply andb_true_iff in E. destruct E as [Hb Ha].
    pose proof (generateJSONPatch_total before after config Hb Ha) as H.
    destruct (generateJSONPatch before after config) as [u q|e|]; auto.
    destruct H as [-> H]. exact H.
  - unfold generateJSONPatch.
    pose proof (ends_compareObjects config
                  (fun e => match e with
                            | NoObjectHashFunction => objectHash config = HashNotCallable
                            | NotAFunction => True
                            end)
                  (S (depth before)) (fun H => H) "" before after
                  (Nat.lt_succ_diag_r _) (or_introl I) (or_introl I) []) as H.
    destruct (compareObjects config (S (depth before)) "" before after [])
      as [u q|e|]; auto.
    destruct e; auto.
Qed.

(** X8: at the root, two arrays under an [objectHash] that is truthy and
    not callable: the configuration error is thrown exactly when the
    serialisations differ; equal arrays pass the gate and give the empty
    patch. *)
Theorem uncallable_objectHash_throws_on_different_arrays :
  forall (config : JsonPatchConfig) (a b : nat) (leftArr rightArr : list JsonValue),
    objectHash config = HashNotCallable ->
    generateJSONPatch (JArray a leftArr) (JArray b rightArr) config
    = if sameElements leftArr rightArr then Returns tt []
      else Throws NoObjectHashFunction.
Proof.
  intros config a b leftArr rightArr Hh. unfold generateJSONPatch.
  cbn [compareObjects isPrimitiveValue orb isArray andb elements String.eqb].
  unfold compareArrays, compareArrayByHash. rewrite Hh.
  destruct (sameElements leftArr rightArr); reflexivity.
Qed.

(** X8 at [[1]] against [[2]]. *)
Lemma uncallable_objectHash_throws_on_different_arrays_witness :
  generateJSONPatch (JArray 0 [JNumber 1]) (JArray 1 [JNumber 2])
    {| objectHash := HashNotCallable; propertyFilter := None; array_ignoreMove := false |}
  = Throws NoObjectHashFunction.
Proof.
  apply (uncallable_objectHash_throws_on_different_arrays
           {| objectHash := HashNotCallable; propertyFilter := None;
              array_ignoreMove := false |} 0 1 [JNumber 1] [JNumber 2]).
  reflexivity.
Defined.

(** ** The index strategy on arrays of different lengths *)

Lemma indexLoop_removes cmp leftArr rightArr path n :
  forall i currentIndex p,
    (i + n <= List.length leftArr)%nat -> (List.length rightArr <= i)%nat ->
    indexLoop cmp leftArr rightArr path n i currentIndex p
    = Returns tt (p ++ repeat (Remove (join path (index_string currentIndex))) n).
Proof.
  induction n as [|n IH]; intros i ci p Hl Hr; simpl.
  - unfold ret. now rewrite app_nil_r.
  - destruct (nth_error leftArr i) eqn:El;
      [|apply nth_error_None in El; lia].
    assert (nth_error rightArr i = None) as -> by (apply nth_error_None; lia).
    unfold bind, push. replace (ci + 1 - 1) with ci by lia.
    rewrite IH by lia. now rewrite <- app_assoc.
Qed.

Lemma indexLoop_adds cmp leftArr rightArr path rest :
  forall i currentIndex p,
    (List.length leftArr <= i)%nat -> skipn i rightArr = rest ->
    indexLoop cmp leftArr rightArr path (List.length rest) i currentIndex p
    = Returns tt (p ++ addsFrom path rest currentIndex).
Proof.
  induction rest as [|v rest IH]; intros i ci p Hl Hr; simpl.
  - unfold ret. now rewrite app_nil_r.
  - assert (nth_error leftArr i = None) as -> by (apply nth_error_None; lia).
    assert (Hv : nth_error rightArr i = Some v).
    { rewrite <- (firstn_skipn i rightArr), Hr.
      assert (i <= List.length rightArr)%nat.
      { destruct (Nat.le_gt_cases i (List.length rightArr)); [assumption|].
        rewrite skipn_all2 in Hr by lia. discriminate Hr. }
      rewrite nth_error_app2; rewrite length_firstn, Nat.min_l by lia; [|lia].
      now rewrite Nat.sub_diag. }
    rewrite Hv. unfold bind, push.
    rewrite (IH (S i) (ci + 1)); [now rewrite <- app_assoc | lia |].
    replace (S i) with (1 + i)%nat by lia. rewrite <- skipn_skipn, Hr. reflexivity.
Qed.

(** Both arrays extended on one side only: the common part is compared
    first, exactly as without the extension. *)
Lemma indexLoop_common cmp l1 r1 el er path m :
  forall i currentIndex p,
    (i + m = List.length l1)%nat -> List.length l1 = List.length r1 ->
    indexLoop cmp (l1 ++ el) (r1 ++ er) path (m + (List.length el + List.length er))
              i currentIndex p
    = match indexLoop cmp l1 r1 path m i currentIndex p with
      | Returns _ q =>
          indexLoop cmp (l1 ++ el) (r1 ++ er) path (List.length el + List.length er)
                    (List.length l1) (currentIndex + Z.of_nat m) q
      | Throws e => Throws e
      | OutOfFuel => OutOfFuel
      end.
Proof.
  induction m as [|m IH]; intros i ci p Hi Hlen.
  - simpl. replace i with (List.length l1) by lia. now rewrite Z.add_0_r.
  - cbn [indexLoop Nat.add].
    assert (Hil : (i < List.length l1)%nat) by lia.
    assert (Hir : (i < List.length r1)%nat) by lia.
    rewrite !nth_error_app1 by assumption.
    destruct (nth_error l1 i) as [x|] eqn:El; [|apply nth_error_None in El; lia].
    destruct (nth_error r1 i) as [y|] eqn:Er; [|apply nth_error_None in Er; lia].
    unfold bind. destruct (cmp _ x y p) as [[] q| |]; try reflexivity.
    rewrite IH by (auto; lia).
    replace (ci + 1 + Z.of_nat m) with (ci + Z.of_nat (S m)) by lia. reflexivity.
Qed.

(** X9: the index strategy on a left array longer than the right one.
    The common positions are compared as if the arrays ended there; then
    every surplus left element is removed, each time at the index just
    after the common part, since a removal does not advance the output
    index. *)
Theorem index_strategy_removes_surplus_at_one_index :
  forall cmp (leftArr rightArr surplus : list JsonValue) (path : string) (p : Patch),
    List.length leftArr = List.length rightArr ->
    compareArrayByIndex cmp (leftArr ++ surplus) rightArr path p
    = match compareArrayByIndex cmp leftArr rightArr path p with
      | Returns _ q =>
          Returns tt (q ++ repeat (Remove (indexPath path (List.length rightArr)))
                                  (List.length surplus))
      | Throws e => Throws e
      | OutOfFuel => OutOfFuel
      end.
Proof.
  intros cmp l r e path p Hlen. unfold compareArrayByIndex.
  rewrite length_app, <- Hlen.
  replace (Nat.max (List.length l + List.length e) (List.length l))
    with (List.length l + (List.length e + List.length (@nil JsonValue)))%nat
    by (simpl; lia).
  rewrite Nat.max_id.
  pose proof (indexLoop_common cmp l r e [] path (List.length l) 0%nat 0 p
                ltac:(lia) Hlen) as H.
  rewrite app_nil_r in H. rewrite H.
  destruct (indexLoop cmp l r path (List.length l) 0 0 p) as [[] q| |]; try reflexivity.
  cbn [List.length]. rewrite Nat.add_0_r.
  rewrite indexLoop_removes; [reflexivity | rewrite length_app; lia | lia].
Qed.

(** X9 at [[1, 2, 3]] against [[1]]: both removals are at [/1]. *)
Lemma index_strategy_removes_surplus_at_one_index_witness :
  compareArrayByIndex (compareObjects emptyConfig 1)
                      ([JNumber 1] ++ [JNumber 2; JNumber 3]) [JNumber 1] "" []
  = Returns tt [Remove "/1"; Remove "/1"].
Proof.
  rewrite (index_strategy_removes_surplus_at_one_index
             (compareObjects emptyConfig 1) [JNumber 1] [JNumber 1]
             [JNumber 2; JNumber 3] "" [] eq_refl).
  reflexivity.
Defined.

(** X10: the index strategy on a right array longer than the left one.
    The common positions are compared as if the arrays ended there; then
    every surplus right element is added, at consecutive indices from the
    length of the left array on. *)
Theorem index_strategy_adds_surplus_in_order :
  forall cmp (leftArr rightArr surplus : list JsonValue) (path : string) (p : Patch),
    List.length leftArr = List.length rightArr ->
    compareArrayByIndex cmp leftArr (rightArr ++ surplus) path p
    = match compareArrayByIndex cmp leftArr rightArr path p with
      | Returns _ q =>
          Returns tt (q ++ addsFrom path surplus (Z.of_nat (List.length leftArr)))
      | Throws e => Throws e
      | OutOfFuel => OutOfFuel
      end.
Proof.
  intros cmp l r e path p Hlen. unfold compareArrayByIndex.
  rewrite length_app, <- Hlen.
  replace (Nat.max (List.length l) (List.length l + List.length e))
    with (List.length l + (List.length (@nil JsonValue) + List.length e))%nat
    by (simpl; lia).
  rewrite Nat.max_id.
  pose proof (indexLoop_common cmp l r [] e path (List.length l) 0%nat 0 p
                ltac:(lia) Hlen) as H.
  rewrite app_nil_r in H. rewrite H.
  destruct (indexLoop cmp l r path (List.length l) 0 0 p) as [[] q| |]; try reflexivity.
  cbn [List.length Nat.add].
  rewrite indexLoop_adds with (rest := e); [reflexivity | lia |].
  rewrite Hlen, skipn_app, Nat.sub_diag, skipn_all. reflexivity.
Qed.

(** X10 at [[1]] against [[1, 2, 3]]. *)
Lemma index_strategy_adds_surplus_in_order_witness :
  compareArrayByIndex (compareObjects emptyConfig 1)
                      [JNumber 1] ([JNumber 1] ++ [JNumber 2; JNumber 3]) "" []
  = Returns tt [Add "/1" (JNumber 2); Add "/2" (JNumber 3)].
Proof.
  rewrite (index_strategy_adds_surplus_in_order
             (compareObjects emptyConfig 1) [JNumber 1] [JNumber 1]
             [JNumber 2; JNumber 3] "" [] eq_refl).
  reflexivity.
Defined.

(** ** Arrays inside arrays *)

Lemma join_nonempty path segment : String.eqb (join path segment) "" = false.
Proof. unfold join. destruct path; reflexivity. Qed.

(** Below the root a pair of values one of which is an array is replaced,
    even when both are arrays with the same elements. *)
Lemma compareObjects_array_below_root config fuel path x y p :
  String.eqb path "" = false ->
  isArray (Some x) || isArray (Some y) = true ->
  compareObjects config (S fuel) path x y p = Returns tt (p ++ [Replace path y]).
Proof.
  intros Hpath Harr. cbn [compareObjects]. rewrite Hpath. cbn [andb].
  destruct x, y; try discriminate Harr; reflexivity.
Qed.

Lemma Forall2_nth_error {A B} (R : A -> B -> Prop) l r i :
  Forall2 R l r ->
  match nth_error l i, nth_error r i with
  | Some x, Some y => R x y
  | None, None => True
  | _, _ => False
  end.
Proof.
  intros H. revert i. induction H as [|x y l r Hxy _ IH]; intros [|i]; simpl; auto.
  apply IH.
Qed.

Lemma indexLoop_replaces config fuel leftArr rightArr path :
  Forall2 (fun x y => isArray (Some x) || isArray (Some y) = true) leftArr rightArr ->
  forall n i p,
    (i + n = List.length rightArr)%nat ->
    indexLoop (compareObjects config (S fuel)) leftArr rightArr path n i (Z.of_nat i) p
    = Returns tt (p ++ replacesFrom path (skipn i rightArr) (Z.of_nat i)).
Proof.
  intros Hall. induction n as [|n IH]; intros i p Hi.
  - simpl. rewrite skipn_all2 by lia. unfold ret. now rewrite app_nil_r.
  - cbn [indexLoop].
    pose proof (Forall2_nth_error _ leftArr rightArr i Hall) as H.
    destruct (nth_error rightArr i) as [y|] eqn:Er;
      [|apply nth_error_None in Er; lia].
    destruct (nth_error leftArr i) as [x|] eqn:El; [|contradiction].
    unfold bind.
    rewrite compareObjects_array_below_root by (auto using join_nonempty).
    replace (Z.of_nat i + 1) with (Z.of_nat (S i)) by lia.
    rewrite IH by lia. rewrite <- app_assoc.
    assert (Hskip : skipn i rightArr = y :: skipn (S i) rightArr).
    { rewrite <- (firstn_skipn i rightArr) in Er.
      assert (Hlen : List.length (firstn i rightArr) = i)
        by (rewrite length_firstn; lia).
      rewrite nth_error_app2, Hlen, Nat.sub_diag in Er by lia.
      replace (S i) with (1 + i)%nat by lia. rewrite <- skipn_skipn.
      destruct (skipn i rightArr); [discriminate Er|].
      injection Er as ->. reflexivity. }
    rewrite Hskip. cbn [replacesFrom app].
    replace (Z.of_nat i + 1) with (Z.of_nat (S i)) by lia. reflexivity.
Qed.

(** X11: elements that are arrays are not reconciled.  When at every
    position of two arrays of equal length the left or the right element
    is an array, the index strategy replaces every element by the right
    one, whether or not the two sides are equal. *)
Theorem index_strategy_replaces_array_elements :
  forall config fuel (leftArr rightArr : list JsonValue) (path : string) (p : Patch),
    Forall2 (fun x y => isArray (Some x) || isArray (Some y) = true) leftArr rightArr ->
    compareArrayByIndex (compareObjects config (S fuel)) leftArr rightArr path p
    = Returns tt (p ++ replacesFrom path rightArr 0).
Proof.
  intros config fuel l r path p Hall. unfold compareArrayByIndex.
  rewrite (Forall2_length Hall), Nat.max_id.
  exact (indexLoop_replaces config fuel l r path Hall (List.length r) 0%nat p eq_refl).
Qed.

(** X11 at [[[1], [2]]] against [[[1], 5]]. *)
Lemma index_strategy_replaces_array_elements_witness :
  compareArrayByIndex (compareObjects emptyConfig 1)
                      [JArray 1 [JNumber 1]; JArray 2 [JNumber 2]]
                      [JArray 3 [JNumber 1]; JNumber 5] "" []
  = Returns tt [Replace "/0" (JArray 3 [JNumber 1]); Replace "/1" (JNumber 5)].
Proof.
  apply (index_strategy_replaces_array_elements emptyConfig 0
           [JArray 1 [JNumber 1]; JArray 2 [JNumber 2]]
           [JArray 3 [JNumber 1]; JNumber 5] "" []).
  repeat constructor.
Defined.

(** ** The hash strategy with an empty side *)

Lemma matchLoop_nothing_matches cmp rightArr path todo :
  forall p,
    matchLoop cmp rightArr [] path todo 0 [] p
    = Returns (0, []) (p ++ repeat (Remove (join path "0")) (List.length todo)).
Proof.
  induction todo as [|[x h] todo IH]; intros p; simpl.
  - unfold ret. now rewrite app_nil_r.
  - unfold bind, push. rewrite IH. now rewrite <- app_assoc.
Qed.

(** X12: the hash strategy against an empty right array removes every
    left element, each at index 0, and emits nothing else. *)
Theorem hash_strategy_to_empty_array :
  forall config f cmp (leftArr : list JsonValue) (path : string) (p : Patch),
    objectHash config = HashFunction f ->
    compareArrayByHash config cmp leftArr [] path p
    = Returns tt (p ++ repeat (Remove (join path "0")) (List.length leftArr)).
Proof.
  intros config f cmp l path p Hf.
  rewrite (compareArrayByHash_structuralPass _ _ f) by assumption.
  unfold structuralPass, bind. cbn [map].
  rewrite matchLoop_nothing_matches. cbn [filter addLoop fst snd List.length moveLoop].
  rewrite length_combine, length_map, Nat.min_id. unfold ret.
  destruct (array_ignoreMove config); reflexivity.
Qed.

(** X12 at [[{id:1}, {id:2}]]. *)
Lemma hash_strategy_to_empty_array_witness :
  compareArrayByHash (hashConfig false) (compareObjects (hashConfig false) 1)
                     ids12 [] "/list" []
  = Returns tt [Remove "/list/0"; Remove "/list/0"].
Proof.
  apply (hash_strategy_to_empty_array (hashConfig false) hashById
           (compareObjects (hashConfig false) 1) ids12 "/list" []).
  reflexivity.
Defined.

Lemma filter_all {A} (g : A -> bool) (l : list A) :
  (forall x, In x l -> g x = true) -> filter g l = l.
Proof.
  induction l as [|x l IH]; intros H; simpl; [reflexivity|].
  rewrite (H x) by now left. f_equal. apply IH. intros y Hy. apply H. now right.
Qed.

Lemma addOperations_distinct rightArr rightHashes path :
  NoDup rightHashes -> List.length rightHashes = List.length rightArr ->
  forall n i,
    (i + n = List.length rightHashes)%nat ->
    addOperations rightArr rightHashes path (skipn i rightHashes) (Z.of_nat i)
    = addsFrom path (skipn i rightArr) (Z.of_nat i).
Proof.
  intros Hnd Hlen. induction n as [|n IH]; intros i Hi.
  - now rewrite !skipn_all2 by lia.
  - assert (Hh : skipn i rightHashes = nth i rightHashes "" :: skipn (S i) rightHashes).
    { rewrite (split_at "" i rightHashes) at 1 by lia.
      rewrite skipn_app, length_firstn, Nat.min_l, Nat.sub_diag by lia.
      rewrite skipn_all2 by (rewrite length_firstn; lia). reflexivity. }
    assert (Hv : skipn i rightArr = nth i rightArr JNull :: skipn (S i) rightArr).
    { rewrite (split_at JNull i rightArr) at 1 by lia.
      rewrite skipn_app, length_firstn, Nat.min_l, Nat.sub_diag by lia.
      rewrite skipn_all2 by (rewrite length_firstn; lia). reflexivity. }
    rewrite Hh, Hv. cbn [addOperations addsFrom]. unfold firstWithHash.
    rewrite position_nth_NoDup by (auto; lia).
    replace (Z.of_nat i + 1) with (Z.of_nat (S i)) by lia.
    now rewrite IH by lia.
Qed.

(** X13: the hash strategy from an empty left array adds one operation
    per right element, in right order at consecutive indices, and no
    move.  Each addition carries the first right element with the hash of
    its position, which is the element itself when the right hashes are
    pairwise distinct. *)
Theorem hash_strategy_from_empty_array :
  forall config f cmp (rightArr : list JsonValue) (path : string) (p : Patch),
    objectHash config = HashFunction f ->
    let rightHashes := map (fun value => f value {| side := right; path := path |}) rightArr in
    compareArrayByHash config cmp [] rightArr path p
    = Returns tt (p ++ addOperations rightArr rightHashes path rightHashes 0) /\
    (NoDup rightHashes ->
     addOperations rightArr rightHashes path rightHashes 0 = addsFrom path rightArr 0).
Proof.
  intros config f cmp r path p Hf hashes. split.
  - rewrite (compareArrayByHash_structuralPass _ _ f) by assumption.
    unfold structuralPass, bind. fold hashes. cbn [map combine matchLoop].
    unfold ret at 1. cbn [fst snd].
    rewrite filter_all by reflexivity.
    rewrite addLoop_returns by (apply Forall_forall; auto).
    cbn [snd app].
    destruct (array_ignoreMove config); [reflexivity|].
    replace (List.length r) with (List.length hashes)
      by (unfold hashes; apply length_map).
    now rewrite moveLoop_in_place.
  - intros Hnd.
    apply (addOperations_distinct r hashes path Hnd (length_map _ _)
                                  (List.length hashes) 0%nat eq_refl).
Qed.

(** X13 at [[{id:2}, {id:1}]]. *)
Lemma hash_strategy_from_empty_array_witness :
  compareArrayByHash (hashConfig false) (compareObjects (hashConfig false) 1)
                     [] ids21 "" []
  = Returns tt ([] ++ addOperations ids21 ["2"; "1"] "" ["2"; "1"] 0) /\
  (NoDup ["2"; "1"] ->
   addOperations ids21 ["2"; "1"] "" ["2"; "1"] 0 = addsFrom "" ids21 0).
Proof.
  apply (hash_strategy_from_empty_array (hashConfig false) hashById
           (compareObjects (hashConfig false) 1) ids21 "" []).
  reflexivity.
Defined.

(** ** The move batch reorders the shadow array into the right order *)

Lemma batchMoves_moveIndices path rightHashes targets :
  forall shadow,
    batchMoves path rightHashes targets shadow
    = map (fun move => Move (indexPath path (fst move)) (indexPath path (snd move)))
          (moveIndices rightHashes targets shadow).
Proof.
  induction targets as [|i targets IH]; intros shadow; simpl; [reflexivity|].
  destruct (Nat.eqb _ _); simpl; now rewrite IH.
Qed.

Lemma position_in_firstn l h k : In h (firstn k l) -> (position l h < k)%nat.
Proof.
  revert k. induction l as [|y l IH]; intros [|k]; simpl; try tauto.
  destruct (String.eqb_spec y h) as [->|Hne]; [lia|].
  intros [E|Hin]; [contradiction|]. specialize (IH k Hin). lia.
Qed.

Lemma skipn_cons_nth (l : list string) i :
  (i < List.length l)%nat -> skipn i l = nth i l "" :: skipn (S i) l.
Proof.
  intros Hi. rewrite (split_at "" i l) at 1 by lia.
  rewrite skipn_app, length_firstn, Nat.min_l, Nat.sub_diag by lia.
  rewrite skipn_all2 by (rewrite length_firstn; lia). reflexivity.
Qed.

Lemma skipn_removeAt {A} (c i : nat) (l : list A) :
  (c < i)%nat -> (c < List.length l)%nat -> skipn i (removeAt c l) = skipn (S i) l.
Proof.
  intros Hci Hc. unfold removeAt.
  rewrite skipn_app, length_firstn, Nat.min_l by lia.
  rewrite skipn_all2 by (rewrite length_firstn; lia).
  rewrite skipn_skipn. cbn [app]. f_equal. lia.
Qed.

Lemma skipn_insertAt {A} (i : nat) (x : A) (l : list A) :
  (i <= List.length l)%nat -> skipn i (insertAt i x l) = x :: skipn i l.
Proof.
  intros Hi. unfold insertAt.
  rewrite skipn_app, length_firstn, Nat.min_l, Nat.sub_diag by lia.
  rewrite skipn_all2 by (rewrite length_firstn; lia). reflexivity.
Qed.

Lemma same_elements_same_length (l l' : list string) :
  NoDup l -> NoDup l' -> (forall h, In h l <-> In h l') -> List.length l = List.length l'.
Proof.
  intros Hl Hl' H. apply Nat.le_antisymm; apply NoDup_incl_length; auto;
    intros h Hh; now apply H.
Qed.

(** With pairwise distinct right hashes and a shadow array that holds
    them in some order, the moves of the batch, replayed on the shadow
    array, produce the right order; each move goes from an index to a
    greater one inside the array. *)
Lemma moveIndices_sorts rightHashes :
  NoDup rightHashes ->
  forall n shadow,
    (n <= List.length rightHashes)%nat ->
    NoDup shadow -> (forall h, In h shadow <-> In h rightHashes) ->
    skipn n shadow = skipn n rightHashes ->
    applyMoves "" (moveIndices rightHashes (lastToFirst n) shadow) shadow = rightHashes /\
    Forall (fun move => (fst move < snd move < List.length rightHashes)%nat)
           (moveIndices rightHashes (lastToFirst n) shadow).
Proof.
  intros Hnd. induction n as [|i IH]; intros shadow Hn Hs Hsame Hskip.
  - simpl in *. subst. split; [reflexivity | constructor].
  - rewrite lastToFirst_S. cbn [moveIndices].
    set (h := nth i rightHashes "").
    assert (Hlen : List.length shadow = List.length rightHashes)
      by now apply same_elements_same_length.
    assert (Hr : In h rightHashes) by (apply nth_In; lia).
    assert (Htgt : position rightHashes h = i) by (apply position_nth_NoDup; auto; lia).
    destruct (position_first shadow h (proj2 (Hsame h) Hr)) as [Hcur _].
    assert (Hcur_lt : (position shadow h < S i)%nat).
    { apply position_in_firstn.
      assert (Hin : In h shadow) by now apply Hsame.
      rewrite <- (firstn_skipn (S i) shadow) in Hin. apply in_app_iff in Hin.
      destruct Hin as [Hin|Hin]; [assumption|]. exfalso.
      rewrite Hskip in Hin.
      rewrite (split_at "" i rightHashes) in Hnd by lia.
      apply NoDup_remove_2 in Hnd. apply Hnd. apply in_app_iff. now right. }
    rewrite Htgt.
    destruct (Nat.eqb_spec (position shadow h) i) as [E|Hne].
    + apply IH; auto; [lia|].
      rewrite (skipn_cons_nth shadow i), (skipn_cons_nth rightHashes i) by lia.
      rewrite Hskip. f_equal. rewrite E in Hcur. apply (nth_error_nth _ _ "" Hcur).
    + assert (Hc : (position shadow h < i)%nat) by lia.
      cbn [applyMoves fold_left]. unfold applyMove at 2. cbn [fst snd].
      rewrite (nth_error_nth _ _ "" Hcur).
      set (shadow' := insertAt i h (removeAt (position shadow h) shadow)).
      assert (Hperm : Permutation shadow shadow').
      { unfold shadow'. rewrite <- (nth_error_nth _ _ "" Hcur) at 1.
        apply insert_remove_Permutation. lia. }
      assert (Hs' : NoDup shadow') by (eapply Permutation_NoDup; eauto).
      assert (Hsame' : forall h', In h' shadow' <-> In h' rightHashes).
      { intros h'. rewrite <- Hsame. unfold shadow'.
        apply (In_insert_remove _ _ _ _ _ Hcur). }
      assert (Hskip' : skipn i shadow' = skipn i rightHashes).
      { unfold shadow'. rewrite skipn_insertAt by (rewrite removeAt_length; lia).
        rewrite skipn_removeAt by lia. rewrite Hskip.
        now rewrite (skipn_cons_nth rightHashes i) by lia. }
      destruct (IH shadow' ltac:(lia) Hs' Hsame' Hskip') as [Happly Hbounds].
      split; [exact Happly|]. constructor; [cbn [fst snd]; lia | exact Hbounds].
Qed.

Lemma structuralPass_result cmp f leftArr rightArr path p index shadow q :
  structuralPass cmp f leftArr rightArr path p = Returns (index, shadow) q ->
  let leftHashes := map (fun value => f value {| side := left; path := path |}) leftArr in
  let rightHashes := map (fun value => f value {| side := right; path := path |}) rightArr in
  let matched := filter (includes rightHashes) leftHashes in
  shadow = matched ++ filter (fun hash => negb (includes matched hash)) rightHashes /\
  index = Z.of_nat (List.length shadow).
Proof.
  intros H leftHashes rightHashes matched.
  unfold structuralPass, bind in H. fold leftHashes rightHashes in H.
  destruct (matchLoop cmp rightArr rightHashes path (combine leftArr leftHashes) 0 [] p)
    as [st1 q1| |] eqn:Hm; try discriminate H.
  pose proof (matchLoop_returns _ _ _ _ _ _ _ _ _ _ Hm) as Hst. cbv zeta in Hst.
  unfold leftHashes in Hst at 1 2. rewrite snd_combine_map in Hst.
  fold leftHashes in Hst. fold matched in Hst. simpl in Hst. subst st1.
  rewrite addLoop_returns in H by apply toBeAdded_in_right.
  cbn [fst snd] in H. inversion H; subst. split; [reflexivity|].
  rewrite length_app. lia.
Qed.

(** X14: the moves put the elements in the order of the right array.
    When the hashes of the left elements are pairwise distinct and so are
    those of the right elements, the shadow array left by the structural
    pass holds exactly the right hashes, as many as the output index
    counts; the move batch, replayed on it move by move (remove at [from],
    insert at the target), yields the right hashes in right order; and
    every move takes an element from an index to a greater index inside
    the array. *)
Theorem move_batch_reaches_right_order :
  forall cmp f (leftArr rightArr : list JsonValue) (path : string)
         (p : Patch) (index : Z) (shadow : list string) (q : Patch),
    let leftHashes := map (fun value => f value {| side := left; path := path |}) leftArr in
    let rightHashes := map (fun value => f value {| side := right; path := path |}) rightArr in
    NoDup leftHashes -> NoDup rightHashes ->
    structuralPass cmp f leftArr rightArr path p = Returns (index, shadow) q ->
    let targets := lastToFirst (List.length rightHashes) in
    let moves := moveIndices rightHashes targets shadow in
    batchMoves path rightHashes targets shadow
    = map (fun move => Move (indexPath path (fst move)) (indexPath path (snd move))) moves /\
    applyMoves "" moves shadow = rightHashes /\
    Forall (fun move => (fst move < snd move < List.length rightArr)%nat) moves /\
    Permutation shadow rightHashes /\
    index = Z.of_nat (List.length rightArr).
Proof.
  intros cmp f l r path p index shadow q leftHashes rightHashes Hl Hr H targets moves.
  destruct (structuralPass_result _ _ _ _ _ _ _ _ _ H) as [Hshadow Hindex].
  fold leftHashes rightHashes in Hshadow.
  set (matched := filter (includes rightHashes) leftHashes) in *.
  assert (Hnd : NoDup shadow).
  { rewrite Hshadow. apply NoDup_app.
    - now apply NoDup_filter.
    - now apply NoDup_filter.
    - intros h Hh Hh'. apply filter_In in Hh'. destruct Hh' as [_ Hh'].
      apply includes_In in Hh. now rewrite Hh in Hh'. }
  assert (Hsame : forall h, In h shadow <-> In h rightHashes).
  { intros h. split.
    - rewrite Hshadow, in_app_iff. intros [Hh|Hh]; apply filter_In in Hh.
      + now apply includes_In.
      + tauto.
    - apply (structuralPass_shadow _ _ _ _ _ _ _ _ H). }
  assert (Hlen : List.length shadow = List.length rightHashes)
    by now apply same_elements_same_length.
  destruct (moveIndices_sorts rightHashes Hr (List.length rightHashes) shadow
              (Nat.le_refl _) Hnd Hsame) as [Happly Hbounds].
  { rewrite !skipn_all2 by lia. reflexivity. }
  assert (Hr_len : List.length rightHashes = List.length r) by apply length_map.
  split; [apply batchMoves_moveIndices|].
  split; [exact Happly|].
  split; [now rewrite <- Hr_len|].
  split; [|lia].
  apply NoDup_Permutation; assumption.
Qed.

(** X14 at [[{id:1}, {id:2}]] against [[{id:2}, {id:1}]]: one move, from
    index 0 to index 1, turns the order [1, 2] into [2, 1]. *)
Lemma move_batch_reaches_right_order_witness :
  batchMoves "" ["2"; "1"] (lastToFirst 2) ["1"; "2"]
  = map (fun move => Move (indexPath "" (fst move)) (indexPath "" (snd move)))
        (moveIndices ["2"; "1"] (lastToFirst 2) ["1"; "2"]) /\
  applyMoves "" (moveIndices ["2"; "1"] (lastToFirst 2) ["1"; "2"]) ["1"; "2"]
  = ["2"; "1"] /\
  Forall (fun move => (fst move < snd move < 2)%nat)
         (moveIndices ["2"; "1"] (lastToFirst 2) ["1"; "2"]) /\
  Permutation ["1"; "2"] ["2"; "1"] /\
  2 = Z.of_nat 2.
Proof.
  apply (move_batch_reaches_right_order
           (compareObjects (hashConfig false) 3) hashById ids12 ids21 "" []
           2 ["1"; "2"] []).
  - repeat constructor; simpl; intuition discriminate.
  - repeat constructor; simpl; intuition discriminate.
  - vm_compute. reflexivity.
Defined.

(** ** Where and what a comparison emits *)

(** X15: a comparison at [path] touches nothing outside the value at
    [path]: each operation it emits is the replacement of the whole value,
    [replace path right], or has every pointer it holds, its [path] and,
    for a move, its [from], continue [path] by [/] and further segments.
    For [generateJSONPatch] the path is the empty one. *)
Theorem operations_stay_in_the_compared_subtree :
  forall config fuel path l r p p',
    compareObjects config fuel path l r p = Returns tt p' ->
    exists ops,
      p' = p ++ ops /\
      Forall (fun op => op = Replace path r \/ belowOp path op) ops.
Proof.
  intros config fuel path l r p p' Hreturns.
  enough (Hemits : emits (fun op => op = Replace path r \/ belowOp path op)
                         (compareObjects config fuel path l r))
    by exact (Hemits p tt p' Hreturns).
  clear p p' Hreturns.
  destruct fuel as [|fuel]; [apply emits_outOfFuel|].
  assert (Hat : forall path l r, emits (atOrBelowOp path) (compareObjects config fuel path l r))
    by (intros; apply emits_compareObjects).
  assert (Hbelow : forall path l r, isJsonObject (Some l) = true ->
                     isJsonObject (Some r) = true ->
                     emits (belowOp path) (compareObjects config fuel path l r))
    by (intros; now apply emits_compareObjects).
  assert (Hrep : emits (fun op => op = Replace path r \/ belowOp path op)
                       (push (Replace path r)))
    by (apply emits_push; now left).
  assert (Hweak : forall (m : M unit), emits (belowOp path) m ->
                    emits (fun op => op = Replace path r \/ belowOp path op) m)
    by (intros m; apply emits_weaken; intros op; now right).
  cbn [compareObjects].
  apply emits_if; [apply emits_if; [exact Hrep | apply emits_ret]|].
  destruct (String.eqb_spec path "") as [->|_]; cbn [andb].
  - apply emits_if; [apply Hweak, emits_compareArrays, Hat|].
    apply emits_if; [exact Hrep|].
    apply Hweak, emits_bind; [|intros _].
    + eapply emits_weaken; [apply rightPassOp_below|]. now apply emits_rightKeyLoop.
    + eapply emits_weaken; [apply leftPassOp_below|]. apply emits_leftKeyLoop.
  - apply emits_if; [exact Hrep|].
    apply Hweak, emits_bind; [|intros _].
    + eapply emits_weaken; [apply rightPassOp_below|]. now apply emits_rightKeyLoop.
    + eapply emits_weaken; [apply leftPassOp_below|]. apply emits_leftKeyLoop.
Qed.

(** X15 at [{a:1, list:[{id:1},{id:2}]}] against
    [{list:[{id:2},{id:1}], c:4}], compared under [/root] with the hash
    strategy: a move, an add and a remove. *)
Lemma operations_stay_in_the_compared_subtree_witness :
  exists ops,
    [Move "/root/list/0" "/root/list/1"; Add "/root/c" (JNumber 4); Remove "/root/a"]
    = [] ++ ops /\
    Forall (fun op => op = Replace "/root" (JObject 1 [("list", JArray 4 ids21); ("c", JNumber 4)])
                      \/ belowOp "/root" op) ops.
Proof.
  apply (operations_stay_in_the_compared_subtree (hashConfig false) 3 "/root"
           (JObject 0 [("a", JNumber 1); ("list", JArray 3 ids12)])
           (JObject 1 [("list", JArray 4 ids21); ("c", JNumber 4)]) []).
  vm_compute. reflexivity.
Defined.

Section EmitsKinds.
Variable config : JsonPatchConfig.
Variable cmp : string -> JsonValue -> JsonValue -> M unit.
Hypothesis cmp_kinds : forall path l r, emits (emittedKind config) (cmp path l r).

Lemma kinds_add path v : emits (emittedKind config) (push (Add path v)).
Proof. apply emits_push. exact I. Qed.

Lemma kinds_remove path : emits (emittedKind config) (push (Remove path)).
Proof. apply emits_push. exact I. Qed.

Lemma kinds_replace path v : emits (emittedKind config) (push (Replace path v)).
Proof. apply emits_push. exact I. Qed.

#[local] Hint Resolve cmp_kinds kinds_add kinds_remove kinds_replace : emits.

Lemma kinds_indexLoop leftArr rightArr path steps :
  forall i currentIndex,
    emits (emittedKind config) (indexLoop cmp leftArr rightArr path steps i currentIndex).
Proof.
  induction steps as [|steps IH]; intros i ci; simpl; [apply emits_ret|].
  destruct (nth_error leftArr i), (nth_error rightArr i); emits_step.
Qed.

Lemma kinds_matchLoop rightArr rightHashes path todo :
  forall currentIndex targetHashes,
    emits (emittedKind config)
          (matchLoop cmp rightArr rightHashes path todo currentIndex targetHashes).
Proof.
  induction todo as [|[x h] todo IH]; intros ci th; simpl; [apply emits_ret|].
  emits_step.
Qed.

Lemma kinds_addLoop rightArr rightHashes path toBeAdded :
  forall currentIndex targetHashes,
    emits (emittedKind config)
          (addLoop rightArr rightHashes path toBeAdded currentIndex targetHashes).
Proof.
  induction toBeAdded as [|h rest IH]; intros ci th; simpl; [apply emits_ret|].
  emits_step.
Qed.

Lemma kinds_moveLoop rightHashes path n :
  (exists f, objectHash config = HashFunction f) -> array_ignoreMove config = false ->
  forall targetHashes,
    emits (emittedKind config) (moveLoop rightHashes path n targetHashes).
Proof.
  intros Hf Hmove. induction n as [|n IH]; intros th; simpl; [apply emits_ret|].
  apply emits_if; [|apply IH].
  apply emits_bind; [|intros _; apply IH].
  apply emits_push. split; assumption.
Qed.

Lemma kinds_compareArrays leftArr rightArr path :
  emits (emittedKind config) (compareArrays config cmp leftArr rightArr path).
Proof.
  unfold compareArrays. apply emits_if; [apply emits_ret|].
  unfold compareArrayByHash, compareArrayByIndex.
  destruct (objectHash config) as [| |f] eqn:Hf; try apply emits_throw.
  - apply kinds_indexLoop.
  - apply emits_bind; [apply kinds_matchLoop | intros st].
    apply emits_bind; [apply kinds_addLoop | intros st'].
    destruct (array_ignoreMove config) eqn:Hmove; [apply emits_ret|].
    apply emits_bind; [|intros; apply emits_ret].
    apply kinds_moveLoop; eauto.
Qed.

#[local] Hint Resolve kinds_compareArrays : emits.

Lemma kinds_compareToObjectPrototype path props todo :
  emits (emittedKind config) (compareToObjectPrototype config path props todo).
Proof.
  induction todo as [|k todo IH]; [apply emits_ret|].
  cbn [compareToObjectPrototype]. cbv zeta. emits_step.
Qed.

#[local] Hint Resolve kinds_compareToObjectPrototype : emits.

Lemma kinds_compareProperty lp rp newPath key :
  emits (emittedKind config) (compareProperty config cmp lp rp newPath key).
Proof. unfold compareProperty. cbv zeta. emits_step. Qed.

#[local] Hint Resolve kinds_compareProperty : emits.

Lemma kinds_rightKeyLoop top path lp rp todo :
  emits (emittedKind config) (rightKeyLoop config cmp top path lp rp todo).
Proof.
  induction todo as [|k todo IH]; [apply emits_ret|].
  cbn [rightKeyLoop]. emits_step.
Qed.

Lemma kinds_leftKeyLoop top path lp rp todo :
  emits (emittedKind config) (leftKeyLoop config top path lp rp todo).
Proof.
  induction todo as [|k todo IH]; [apply emits_ret|].
  cbn [leftKeyLoop]. emits_step.
Qed.
End EmitsKinds.

Lemma kinds_compareObjects config fuel :
  forall path l r, emits (emittedKind config) (compareObjects config fuel path l r).
Proof.
  induction fuel as [|fuel IH]; intros path l r; [apply emits_outOfFuel|].
  cbn [compareObjects].
  apply emits_if; [apply emits_if; [apply kinds_replace | apply emits_ret]|].
  apply emits_if; [now apply kinds_compareArrays|].
  apply emits_if; [apply kinds_replace|].
  apply emits_bind; [now apply kinds_rightKeyLoop | intros _; apply kinds_leftKeyLoop].
Qed.

(** X16: the kinds of operation in a patch.  [generateJSONPatch] never
    emits a copy or a test, and it emits a move only when [objectHash] is
    a function and [array.ignoreMove] is not set: without a hash function,
    or with moves ignored, the patch holds additions, removals and
    replacements only. *)
Theorem patch_operation_kinds :
  forall before after config patch,
    generateJSONPatch before after config = Returns tt patch ->
    Forall (emittedKind config) patch.
Proof.
  intros before after config patch H. unfold generateJSONPatch in H.
  destruct (kinds_compareObjects config _ _ _ _ _ _ _ H) as (ops & E & Hops).
  simpl in E. now subst.
Qed.

(** X16 at the arrays of the documented move example with moves ignored
    and one element changed. *)
Lemma patch_operation_kinds_witness :
  Forall (emittedKind (hashConfig true))
         [Replace "/0/v" (JNumber 7)].
Proof.
  apply (patch_operation_kinds
           (JArray 0 [JObject 1 [("id", JNumber 1); ("v", JNumber 1)]; withId 2 2])
           (JArray 3 [withId 4 2; JObject 5 [("id", JNumber 1); ("v", JNumber 7)]])
           (hashConfig true)).
  vm_compute. reflexivity.
Defined.

(** ** Objects with an empty side *)

Lemma isJsonObject_defined (o : option JsonValue) :
  isJsonObject (Some (defined o)) = isJsonObject o.
Proof. destruct o; reflexivity. Qed.

Lemma compareProperty_absent config cmp lp rp newPath k p :
  hasKey "hasOwnProperty" lp = false -> hasKey k lp = false ->
  (k = "__proto__" -> isJsonObject (getProp k rp) = false) ->
  compareProperty config cmp lp rp newPath k p
  = Returns tt (p ++ [Add newPath (defined (getProp k rp))]).
Proof.
  intros Hown Hk Hproto. unfold compareProperty.
  rewrite (hasKey_false_getProp _ _ Hk). cbn [isArray andb].
  change (isJsonObject None) with false. cbv iota.
  rewrite isJsonObject_defined.
  unfold bind, hasOwnProperty. rewrite Hown, Hk.
  destruct (isJsonObject (getProp k rp)) eqn:Hobj; [|reflexivity].
  assert (readsObjectPrototype lp k = false) as ->; [|reflexivity].
  unfold readsObjectPrototype.
  destruct (String.eqb_spec k "__proto__") as [E|_]; [|reflexivity].
  specialize (Hproto E). congruence.
Qed.

Lemma rightKeyLoop_from_empty config cmp top path rp todo :
  isJsonObject (getProp "__proto__" rp) = false ->
  forall p,
    rightKeyLoop config cmp top path [] rp todo p
    = Returns tt (p ++ map (fun k => Add (join path k) (defined (getProp k rp)))
                           (filter (accepted config right path) todo)).
Proof.
  intros Hproto. induction todo as [|k todo IH]; intros p.
  - simpl. unfold ret. now rewrite app_nil_r.
  - cbn [rightKeyLoop filter]. unfold accepted at 1. unfold bind at 1.
    destruct (filteredOut config k right path); cbn [negb].
    + unfold ret. apply IH.
    + rewrite newPath_join, compareProperty_absent;
        [|reflexivity|reflexivity|now intros ->].
      rewrite IH. cbn [map]. now rewrite <- app_assoc.
Qed.

(** X17: against an empty left object every right key the caller's
    [propertyFilter] accepts on the right side (every key when there is
    no filter) is added, in enumeration order, with its right value, and
    nothing else is emitted.  This takes a right object without an own
    property [__proto__] holding a plain object: for that key the code
    reads [Object.prototype] on the left and descends instead. *)
Theorem empty_object_gains_every_accepted_key :
  forall config fuel path a b (rp : list (string * JsonValue)) (p : Patch),
    isJsonObject (getProp "__proto__" rp) = false ->
    compareObjects config (S fuel) path (JObject a []) (JObject b rp) p
    = Returns tt
        (p ++ map (fun k => Add (join path k) (defined (getProp k rp)))
                  (filter (fun k =>
                             match propertyFilter config with
                             | Some propertyFilter =>
                                 propertyFilter k {| side := right; path := path |}
                             | None => true
                             end)
                          (map fst rp))).
Proof.
  intros config fuel path a b rp p Hproto.
  cbn [compareObjects isPrimitiveValue orb isArray andb properties].
  rewrite andb_false_r. cbn [orb]. unfold keys. cbn [properties map leftKeyLoop].
  unfold bind. rewrite rightKeyLoop_from_empty by assumption.
  unfold ret. do 3 f_equal. apply filter_ext. intros k.
  apply accepted_propertyFilter.
Qed.

(** X17 at [{}] against [{a: 1, b: 2, c: {x: 1}}] with a filter that
    rejects [b]. *)
Lemma empty_object_gains_every_accepted_key_witness :
  compareObjects
    {| objectHash := HashFalsy;
       propertyFilter := Some (fun key _ => negb (String.eqb key "b"));
       array_ignoreMove := false |}
    1 "" (JObject 0 [])
    (JObject 1 [("a", JNumber 1); ("b", JNumber 2); ("c", JObject 2 [("x", JNumber 1)])]) []
  = Returns tt [Add "/a" (JNumber 1); Add "/c" (JObject 2 [("x", JNumber 1)])].
Proof.
  apply (empty_object_gains_every_accepted_key
           {| objectHash := HashFalsy;
              propertyFilter := Some (fun key _ => negb (String.eqb key "b"));
              array_ignoreMove := false |}
           0 "" 0%nat 1%nat
           [("a", JNumber 1); ("b", JNumber 2); ("c", JObject 2 [("x", JNumber 1)])] []).
  reflexivity.
Defined.

(** The code at the key [__proto__]: against [{}], the right object
    [{"__proto__": {"x": 1}}] (as [JSON.parse] builds it) makes the left
    read answer [Object.prototype], and the patch adds [/__proto__/x]. *)
Lemma right_only_proto_key_descends :
  generateJSONPatch (JObject 0 [])
                    (JObject 1 [("__proto__", JObject 2 [("x", JNumber 1)])])
                    emptyConfig
  = Returns tt [Add "/__proto__/x" (JNumber 1)].
Proof. vm_compute. reflexivity. Qed.

Lemma leftKeyLoop_to_empty config top path lp todo :
  hasKey "hasOwnProperty" lp = false ->
  Forall (fun k => hasKey k lp = true) todo ->
  forall p,
    leftKeyLoop config top path lp [] todo p
    = Returns tt (p ++ map (fun k => Remove (join path k))
                           (filter (accepted config left path) todo)).
Proof.
  intros Hown. induction 1 as [|k todo Hk _ IH]; intros p.
  - simpl. unfold ret. now rewrite app_nil_r.
  - cbn [leftKeyLoop filter]. unfold accepted at 1. unfold bind, hasOwnProperty.
    rewrite Hown, Hk. cbn [hasKey negb orb]. unfold ret at 1.
    destruct (filteredOut config k left path); cbn [negb].
    + apply IH.
    + rewrite newPath_join. unfold ret, push. cbn [orb negb]. cbv beta iota.
      rewrite IH. cbn [map]. now rewrite <- app_assoc.
Qed.


(** ** The hash strategy when hashes pair the elements by position *)

Lemma skipn_cons {A} (d : A) (l : list A) i :
  (i < List.length l)%nat -> skipn i l = nth i l d :: skipn (S i) l.
Proof.
  intros Hi. rewrite (split_at d i l) at 1 by lia.
  rewrite skipn_app, length_firstn, Nat.min_l, Nat.sub_diag by lia.
  rewrite skipn_all2 by (rewrite length_firstn; lia). reflexivity.
Qed.

Lemma firstn_snoc {A} (d : A) (l : list A) i :
  (i < List.length l)%nat -> firstn i l ++ [nth i l d] = firstn (S i) l.
Proof.
  revert i. induction l as [|x l IH]; intros i Hi; simpl in Hi; [lia|].
  destruct i as [|i]; simpl; [reflexivity|]. f_equal. apply IH. lia.
Qed.

Lemma matchLoop_positional cmp leftArr rightArr path hashes :
  NoDup hashes ->
  List.length hashes = List.length leftArr ->
  List.length leftArr = List.length rightArr ->
  forall m k p,
    (k + m = List.length leftArr)%nat ->
    matchLoop cmp rightArr hashes path (combine (skipn k leftArr) (skipn k hashes))
              (Z.of_nat k) (firstn k hashes) p
    = match indexLoop cmp leftArr rightArr path m k (Z.of_nat k) p with
      | Returns _ q => Returns (Z.of_nat (List.length leftArr), hashes) q
      | Throws e => Throws e
      | OutOfFuel => OutOfFuel
      end.
Proof.
  intros Hnd Hlh Hlr. induction m as [|m IH]; intros k p Hk.
  - rewrite !skipn_all2 by lia. simpl. unfold ret.
    rewrite firstn_all2 by lia. do 3 f_equal. lia.
  - rewrite (skipn_cons JNull leftArr k), (skipn_cons "" hashes k) by lia.
    cbn [combine]. rewrite matchLoop_matched by (apply nth_In; lia).
    unfold firstWithHash. rewrite position_nth_NoDup by (auto; lia).
    cbn [indexLoop].
    rewrite (nth_error_nth' leftArr JNull) by lia.
    rewrite (nth_error_nth' rightArr JNull) by lia.
    unfold bind. destruct (cmp _ _ _ p) as [[] q| |]; try reflexivity.
    rewrite (firstn_snoc "" hashes k) by lia.
    replace (Z.of_nat k + 1) with (Z.of_nat (S k)) by lia.
    apply IH. lia.
Qed.

(** X19: when [objectHash] gives the two arrays the same pairwise
    distinct hashes in the same order, the hash strategy does what the
    index strategy does: it compares the elements position by position
    and emits no removal, addition or move of its own. *)
Theorem hash_strategy_with_positional_hashes_is_index_strategy :
  forall config f cmp (leftArr rightArr : list JsonValue) (path : string) (p : Patch),
    objectHash config = HashFunction f ->
    map (fun value => f value {| side := left; path := path |}) leftArr
    = map (fun value => f value {| side := right; path := path |}) rightArr ->
    NoDup (map (fun value => f value {| side := right; path := path |}) rightArr) ->
    compareArrayByHash config cmp leftArr rightArr path p
    = compareArrayByIndex cmp leftArr rightArr path p.
Proof.
  intros config f cmp l r path p Hf Hlr Hnd.
  rewrite (compareArrayByHash_structuralPass _ _ f) by assumption.
  unfold structuralPass, compareArrayByIndex, bind. rewrite Hlr.
  set (hashes := map (fun value => f value {| side := right; path := path |}) r) in *.
  assert (Hlen_r : List.length hashes = List.length r) by apply length_map.
  assert (Hlen_l : List.length hashes = List.length l)
    by (rewrite <- Hlr; apply length_map).
  pose proof (matchLoop_positional cmp l r path hashes Hnd Hlen_l ltac:(lia)
                (List.length l) 0%nat p eq_refl) as Hm.
  cbn [skipn firstn Z.of_nat] in Hm. rewrite Hm.
  replace (Nat.max (List.length l) (List.length r)) with (List.length l) by lia.
  destruct (indexLoop cmp l r path (List.length l) 0 0 p) as [[] q| |]; try reflexivity.
  cbn [fst snd]. rewrite toBeAdded_none by auto. cbn [addLoop]. unfold ret.
  destruct (array_ignoreMove config); [reflexivity|].
  cbn [snd]. now rewrite moveLoop_in_place.
Qed.

(** X19 at [[{id:1,v:1}, {id:2}]] against [[{id:1,v:2}, {id:2}]]. *)
Lemma hash_strategy_with_positional_hashes_is_index_strategy_witness :
  compareArrayByHash (hashConfig false) (compareObjects (hashConfig false) 2)
                     [firstOfHash1; withId 2 2] [secondOfHash1; withId 4 2] "" []
  = compareArrayByIndex (compareObjects (hashConfig false) 2)
                        [firstOfHash1; withId 2 2] [secondOfHash1; withId 4 2] "" [].
Proof.
  apply (hash_strategy_with_positional_hashes_is_index_strategy
           (hashConfig false) hashById).
  - reflexivity.
  - reflexivity.
  - repeat constructor; simpl; intuition discriminate.
Defined.

(** ** The index strategy on primitives *)

Lemma indexLoop_primitives config fuel leftArr rightArr path :
  Forall2 (fun x y => isPrimitiveValue x || isPrimitiveValue y = true) leftArr rightArr ->
  forall n i p,
    (i + n = List.length leftArr)%nat ->
    indexLoop (compareObjects config (S fuel)) leftArr rightArr path n i (Z.of_nat i) p
    = Returns tt (p ++ positionalReplaces path (skipn i leftArr) (skipn i rightArr)
                                          (Z.of_nat i)).
Proof.
  intros Hall. pose proof (Forall2_length Hall) as Hlen.
  induction n as [|n IH]; intros i p Hi.
  - simpl. rewrite skipn_all2 by lia. unfold ret. now rewrite app_nil_r.
  - cbn [indexLoop].
    pose proof (Forall2_nth_error _ leftArr rightArr i Hall) as H.
    rewrite (skipn_cons JNull leftArr i), (skipn_cons JNull rightArr i) by lia.
    rewrite (nth_error_nth' leftArr JNull) in * by lia.
    rewrite (nth_error_nth' rightArr JNull) in * by lia.
    cbn [positionalReplaces]. unfold bind.
    cbn [compareObjects]. rewrite H.
    replace (Z.of_nat i + 1) with (Z.of_nat (S i)) by lia.
    destruct (strictEq (nth i leftArr JNull) (nth i rightArr JNull)); cbn [negb].
    + unfold ret. apply IH. lia.
    + unfold push. rewrite IH by lia. now rewrite <- app_assoc.
Qed.

(** X20: on two arrays of equal length in which at every position a side
    is a primitive, the index strategy emits one replacement per position
    whose two sides are not strictly equal, in order, and nothing else. *)
Theorem index_strategy_replaces_changed_primitives :
  forall config fuel (leftArr rightArr : list JsonValue) (path : string) (p : Patch),
    Forall2 (fun x y => isPrimitiveValue x || isPrimitiveValue y = true) leftArr rightArr ->
    compareArrayByIndex (compareObjects config (S fuel)) leftArr rightArr path p
    = Returns tt (p ++ positionalReplaces path leftArr rightArr 0).
Proof.
  intros config fuel l r path p Hall. unfold compareArrayByIndex.
  rewrite <- (Forall2_length Hall), Nat.max_id.
  exact (indexLoop_primitives config fuel l r path Hall (List.length l) 0%nat p eq_refl).
Qed.

(** X20 at [[1, 2, 3]] against [[1, 5, "3"]]. *)
Lemma index_strategy_replaces_changed_primitives_witness :
  compareArrayByIndex (compareObjects emptyConfig 1)
                      [JNumber 1; JNumber 2; JNumber 3]
                      [JNumber 1; JNumber 5; JString "3"] "" []
  = Returns tt [Replace "/1" (JNumber 5); Replace "/2" (JString "3")].
Proof.
  apply (index_strategy_replaces_changed_primitives emptyConfig 0
           [JNumber 1; JNumber 2; JNumber 3]
           [JNumber 1; JNumber 5; JString "3"] "" []).
  repeat constructor.
Defined.
